(** * Verification of the debtk CSV readers

  A shallow embedding of [src/errors.rs], [src/csv/easy.rs] and
  [src/csv/medium.rs]. *)

From Stdlib Require Import List Bool Arith Lia NArith ZArith QArith String Ascii Strings.Byte.
From Stdlib Require Import Floats Numbers.Cyclic.Int63.Uint63 Sorting.Sorted.
Import ListNotations.
Close Scope Q_scope.

(** ** [src/lib.rs] and [src/errors.rs] *)
Module Errors.

Record Position := { line : nat; column : nat }.

(** [CsvError]; the [&'static str] causes are kept as strings. *)
Inductive CsvError :=
| Io (msg : string)
| Ambiguity (pos : Position) (cause : string)
| Invalid (pos : Position) (cause : string).

(** [std::result::Result]. *)
Inductive result (T E : Type) :=
| Ok (v : T)
| Err (e : E).
Arguments Ok {T E} v.
Arguments Err {T E} e.

(** [crate::errors::Result]. *)
Definition Result (T : Type) := result T CsvError.

(** An [io::Error] is only observed through its [to_string]. *)
Definition io_error := string.

(** [impl From<io::Error> for CsvError]. *)
Definition from_io (e : io_error) : CsvError := Io e.

End Errors.
Import Errors.

(** ** [src/csv/easy.rs] *)
Module Easy.

(** A Rust [char] is a Unicode scalar value; a [String] is the list of
    its chars. *)
Definition char := N.
Definition rust_string := list char.

Definition LF : char := 10%N.
Definition CR : char := 13%N.

(** The [while let Some(ch) = chars.next()] loop of
    [fast_stream_valid_csv], with its state [row], [current_field] and
    [within_quotes].  [chars.peek() == Some(&quote)] followed by
    [chars.next()] consumes the second quote of a pair. *)
Fixpoint tokenize (delimiter quote : char) (chars : list char)
    (row : list rust_string) (current_field : rust_string)
    (within_quotes : bool) : list rust_string :=
  match chars with
  | [] => row ++ [current_field]
  | ch :: rest =>
      if N.eqb ch quote then
        match rest with
        | q :: rest' =>
            if within_quotes && N.eqb q quote then
              tokenize delimiter quote rest' row (current_field ++ [quote])
                within_quotes
            else
              tokenize delimiter quote rest row current_field
                (negb within_quotes)
        | [] =>
            tokenize delimiter quote rest row current_field
              (negb within_quotes)
        end
      else if N.eqb ch delimiter && negb within_quotes then
        tokenize delimiter quote rest (row ++ [current_field]) [] within_quotes
      else
        tokenize delimiter quote rest row (current_field ++ [ch])
          within_quotes
  end.

(** The closure body for one line: [row.push(current_field); Ok(row)]. *)
Definition parse_line (delimiter quote : char) (line : rust_string)
  : list rust_string :=
  tokenize delimiter quote line [] [] false.

(** A [BufRead] reader is observed through [reader.lines()]: the
    sequence of line results it yields. *)
Definition Reader := list (result rust_string io_error).

(** [fast_stream_valid_csv]: [line_result?] converts an [io::Error]
    with [From]. *)
Definition fast_stream_valid_csv (reader : Reader) (delimiter quote : char)
  : list (Result (list rust_string)) :=
  map (fun line_result =>
         match line_result with
         | Err e => Err (from_io e)
         | Ok line => Ok (parse_line delimiter quote line)
         end) reader.

(** [[String]::join(&delimiter.to_string())]. *)
Fixpoint join (sep : rust_string) (xs : list rust_string) : rust_string :=
  match xs with
  | [] => []
  | [x] => x
  | x :: xs' => x ++ sep ++ join sep xs'
  end.

Definition not_enough_columns : string :=
  "Not enough columns. There may be an unescaped newline in a field.".

(** The closure of [fast_stream_csv_with_unescaped_delimiters], applied
    to [(line, row_result)].  [take] on an iterator stops at its end,
    as [firstn] does. *)
Definition resolve_row (delimiter : char) (invalid_column_index
    expected_column_count : nat) (line : nat)
    (row_result : Result (list rust_string)) : Result (list rust_string) :=
  match row_result with
  | Err e => Err e
  | Ok row =>
      let apparent_column_count := List.length row in
      if apparent_column_count <? expected_column_count then
        Err (Invalid {| line := line; column := expected_column_count |}
               not_enough_columns)
      else if expected_column_count <? apparent_column_count then
        let new_row := firstn invalid_column_index row in
        let row := skipn invalid_column_index row in
        let k := apparent_column_count - expected_column_count + 1 in
        let invalid_column := join [delimiter] (firstn k row) in
        let row := skipn k row in
        Ok (new_row ++ [invalid_column] ++ row)
      else Ok row
  end.

(** [.enumerate().map(f)]. *)
Fixpoint map_enumerate {A B} (f : nat -> A -> B) (n : nat) (l : list A)
  : list B :=
  match l with
  | [] => []
  | x :: l' => f n x :: map_enumerate f (S n) l'
  end.

Definition fast_stream_csv_with_unescaped_delimiters (reader : Reader)
    (delimiter quote : char) (invalid_column_index expected_column_count : nat)
  : list (Result (list rust_string)) :=
  map_enumerate
    (resolve_row delimiter invalid_column_index expected_column_count) 0
    (fast_stream_valid_csv reader delimiter quote).

(** [BufRead::lines] on an in-memory [Cursor] over valid UTF-8: split at
    each LF; a line ending in LF loses it and then one CR before it; a
    last line without LF is kept as it is, an empty rest yields nothing. *)
Definition strip_cr (l : rust_string) : rust_string :=
  match rev l with
  | c :: r => if N.eqb c CR then rev r else l
  | [] => l
  end.

Fixpoint lines_aux (input : list char) (cur : rust_string)
  : list rust_string :=
  match input with
  | [] => match cur with [] => [] | _ => [cur] end
  | c :: rest =>
      if N.eqb c LF then strip_cr cur :: lines_aux rest []
      else lines_aux rest (cur ++ [c])
  end.

Definition cursor (input : list char) : Reader :=
  map Ok (lines_aux input []).

(** ASCII text as a list of chars, for concrete inputs. *)
Definition chars_of (s : string) : rust_string :=
  map (fun a => N_of_ascii a) (list_ascii_of_string s).

(** The trivial single-pass tokenization: split at every delimiter. *)
Fixpoint split_on (delimiter : char) (s : list char) : list rust_string :=
  match s with
  | [] => [[]]
  | c :: s' =>
      if N.eqb c delimiter then [] :: split_on delimiter s'
      else match split_on delimiter s' with
           | f :: fs => (c :: f) :: fs
           | [] => [[c]]
           end
  end.

End Easy.

(** ** [src/csv/medium.rs] *)
Module Medium.

(** [CharacterClass], [#[repr(u8)]] in declaration order. *)
Inductive CharacterClass :=
| Digit | Letter | Punctuation | Whitespace | Quote | Comma | Tab
| Newline | Other.

(** [class as usize]. *)
Definition class_index (c : CharacterClass) : nat :=
  match c with
  | Digit => 0 | Letter => 1 | Punctuation => 2 | Whitespace => 3
  | Quote => 4 | Comma => 5 | Tab => 6 | Newline => 7 | Other => 8
  end.

(** The [u8] predicates of the standard library. *)
Definition is_ascii_digit (n : nat) : bool := (48 <=? n) && (n <=? 57).
Definition is_ascii_alphabetic (n : nat) : bool :=
  ((65 <=? n) && (n <=? 90)) || ((97 <=? n) && (n <=? 122)).
Definition is_ascii_punctuation (n : nat) : bool :=
  ((33 <=? n) && (n <=? 47)) || ((58 <=? n) && (n <=? 64))
  || ((91 <=? n) && (n <=? 96)) || ((123 <=? n) && (n <=? 126)).
Definition is_ascii_whitespace (n : nat) : bool :=
  (n =? 32) || (n =? 9) || (n =? 10) || (n =? 12) || (n =? 13).

(** [CharacterClass::from_byte]. *)
Definition from_byte (byte : Byte.byte) : CharacterClass :=
  let n := Byte.to_nat byte in
  if n =? 34 then Quote
  else if n =? 44 then Comma
  else if n =? 9 then Tab
  else if n =? 10 then Newline
  else if n =? 13 then Newline
  else if is_ascii_digit n then Digit
  else if is_ascii_alphabetic n then Letter
  else if is_ascii_punctuation n then Punctuation
  else if is_ascii_whitespace n then Whitespace
  else if 127 <? n then Other
  else Other.

(** [ColumnComplexity]: the array [[usize; 9]] as a list of 9 counts. *)
Record ColumnComplexity := { class_counts : list nat }.

Definition default_complexity : ColumnComplexity :=
  {| class_counts := repeat 0 9 |}.

(** [a[i] += 1] on an array. *)
Fixpoint incr_at (i : nat) (l : list nat) : list nat :=
  match l, i with
  | [], _ => []
  | x :: l', 0 => S x :: l'
  | x :: l', S i' => x :: incr_at i' l'
  end.

(** [ColumnComplexity::add_bytes]. *)
Definition add_bytes (self : ColumnComplexity) (bytes : list Byte.byte)
  : ColumnComplexity :=
  {| class_counts :=
       fold_left (fun counts byte =>
                    incr_at (class_index (from_byte byte)) counts)
         bytes (class_counts self) |}.

(** [ColumnComplexity::from_byte_slice_iter]. *)
Definition from_byte_slice_iter (iter : list (list Byte.byte))
  : ColumnComplexity :=
  fold_left add_bytes iter default_complexity.

(** [n as f64] for a [usize] count; a count of bytes held in memory is
    below 2^63, where [of_uint63] rounds as the Rust cast does. *)
Definition usize_as_f64 (n : nat) : float :=
  PrimFloat.of_uint63 (Uint63.of_Z (Z.of_nat n)).

Fixpoint sum_usize (l : list nat) : nat :=
  match l with [] => 0 | x :: l' => x + sum_usize l' end.

(** [ColumnComplexity::gini_impurity], in IEEE-754 binary64. *)
Definition gini_impurity (self : ColumnComplexity) : float :=
  let total := usize_as_f64 (sum_usize (class_counts self)) in
  let sum := fold_left (fun sum count =>
                          let p := (usize_as_f64 count / total)%float in
                          (sum + p * p)%float)
               (class_counts self) 0%float in
  (1 - sum)%float.

(** The expression of [gini_impurity] evaluated in exact rational
    arithmetic: the value that the [f64] computation rounds. *)
Definition gini_impurity_exact (self : ColumnComplexity) : Q :=
  let total := inject_Z (Z.of_nat (sum_usize (class_counts self))) in
  let sum := fold_left (fun sum count =>
                          let p := (inject_Z (Z.of_nat count) / total)%Q in
                          (sum + p * p)%Q)
               (class_counts self) 0%Q in
  (1 - sum)%Q.

(** [Mask = BitVec<u64, Lsb0>]. *)
Definition Mask := list bool.

Record Solution := {
  delimiter : Byte.byte;
  column_count : option nat;
  column_complexities : list ColumnComplexity;
  file_length : nat;
  delimiter_locations : list nat;
  quote_locations : list nat;
  quote_can_start : Mask;
  quote_can_end : Mask }.

(** A panic (an index or a slice bound out of range) is [None]. *)
Notation "'let?' x := a 'in' b" :=
  (match a with Some x => b | None => None end)
    (at level 200, x name, a at level 100, b at level 200).

(** [mask.set(i, b)]: panics when [i] is out of bounds. *)
Fixpoint replace_at (i : nat) (b : bool) (m : Mask) : Mask :=
  match m, i with
  | [], _ => []
  | _ :: m', 0 => b :: m'
  | x :: m', S i' => x :: replace_at i' b m'
  end.

Definition mask_set (m : Mask) (i : nat) (b : bool) : option Mask :=
  if i <? List.length m then Some (replace_at i b m) else None.

(** [for mut bit in &mut mask[..n] { bit.set(false) }]. *)
Definition clear_before (m : Mask) (n : nat) : option Mask :=
  if n <=? List.length m then Some (repeat false n ++ skipn n m) else None.

(** [for mut bit in &mut mask[n..] { bit.set(false) }]. *)
Definition clear_from (m : Mask) (n : nat) : option Mask :=
  if n <=? List.length m
  then Some (firstn n m ++ repeat false (List.length m - n)) else None.

(** [mask.first_one()] and [mask.last_one()]. *)
Fixpoint first_one_from (i : nat) (m : Mask) : option nat :=
  match m with
  | [] => None
  | b :: m' => if b then Some i else first_one_from (S i) m'
  end.
Definition first_one (m : Mask) : option nat := first_one_from 0 m.

Fixpoint last_one_from (i : nat) (m : Mask) : option nat :=
  match m with
  | [] => None
  | b :: m' =>
      match last_one_from (S i) m' with
      | Some j => Some j
      | None => if b then Some i else None
      end
  end.
Definition last_one (m : Mask) : option nat := last_one_from 0 m.

Definition unwrap_or (o : option nat) (d : nat) : nat :=
  match o with Some x => x | None => d end.

(** [locations.binary_search(&x).is_ok()]: on the sorted
    [delimiter_locations] this is membership. *)
Definition binary_search_is_ok (locations : list nat) (x : nat) : bool :=
  existsb (Nat.eqb x) locations.

(** The per-quote loop of [default_heuristics]. *)
Fixpoint quote_rules (delimiter_locations : list nat) (file_length : nat)
    (quote_num : nat) (quotes : list nat) (can_start can_end : Mask)
  : option (Mask * Mask) :=
  match quotes with
  | [] => Some (can_start, can_end)
  | quote_byte :: quotes' =>
      let prev := (quote_byte =? 0)
                  || binary_search_is_ok delimiter_locations (quote_byte - 1) in
      let next := (quote_byte =? file_length - 1)
                  || binary_search_is_ok delimiter_locations (quote_byte + 1) in
      let? can_start :=
        if prev then mask_set can_start quote_num false else Some can_start in
      let? can_end :=
        if next then mask_set can_end quote_num false else Some can_end in
      quote_rules delimiter_locations file_length (S quote_num) quotes'
        can_start can_end
  end.

(** [Solution::default_heuristics]. *)
Definition default_heuristics (self : Solution) : option Solution :=
  let? masks := quote_rules (delimiter_locations self) (file_length self) 0
                  (quote_locations self) (quote_can_start self)
                  (quote_can_end self) in
  let (can_start, can_end) := masks in
  let? can_end := clear_before can_end (unwrap_or (first_one can_start) 0) in
  let? can_start := clear_from can_start (unwrap_or (last_one can_end) 0) in
  Some {| delimiter := delimiter self;
          column_count := column_count self;
          column_complexities := column_complexities self;
          file_length := file_length self;
          delimiter_locations := delimiter_locations self;
          quote_locations := quote_locations self;
          quote_can_start := can_start;
          quote_can_end := can_end |}.

Definition byte_LF : Byte.byte := x0a.
Definition byte_CR : Byte.byte := x0d.
Definition byte_quote : Byte.byte := x22.

(** [raw[i - 1..].starts_with(b"\r\n")]. *)
Definition starts_with_crlf (s : list Byte.byte) : bool :=
  match s with
  | a :: b :: _ => Byte.eqb a byte_CR && Byte.eqb b byte_LF
  | _ => false
  end.

(** The condition under which [Solution::new] records a quote at [i]. *)
Definition quote_recorded (raw : list Byte.byte) (delimiter : Byte.byte)
    (i : nat) : bool :=
  (i =? 0)
  || Byte.eqb (nth (i - 1) raw x00) delimiter
  || Byte.eqb (nth (i - 1) raw x00) byte_LF
  || starts_with_crlf (skipn (i - 1) raw)
  || (i =? List.length raw - 1).

(** The [for (i, byte) in raw.iter().enumerate()] loop of
    [Solution::new]. *)
Fixpoint scan (raw : list Byte.byte) (delimiter : Byte.byte) (i : nat)
    (bytes : list Byte.byte) (delimiter_locations quote_locations : list nat)
  : list nat * list nat :=
  match bytes with
  | [] => (delimiter_locations, quote_locations)
  | byte :: bytes' =>
      if Byte.eqb byte byte_LF then
        scan raw delimiter (S i) bytes' (delimiter_locations ++ [i])
          quote_locations
      else if Byte.eqb byte byte_quote then
        if quote_recorded raw delimiter i then
          scan raw delimiter (S i) bytes' delimiter_locations
            (quote_locations ++ [i])
        else scan raw delimiter (S i) bytes' delimiter_locations
               quote_locations
      else if Byte.eqb byte delimiter then
        scan raw delimiter (S i) bytes' (delimiter_locations ++ [i])
          quote_locations
      else scan raw delimiter (S i) bytes' delimiter_locations
             quote_locations
  end.

(** [Solution::new].  The source initialises both masks with
    [this.quote_valid.clone()], a field [Solution] does not declare; its
    value is the parameter [quote_valid]. *)
Definition new (raw : list Byte.byte) (delimiter : Byte.byte)
    (quote_valid : Mask) : option Solution :=
  let (delimiter_locations, quote_locations) :=
    scan raw delimiter 0 raw [] [] in
  default_heuristics
    {| delimiter := delimiter;
       column_count := None;
       column_complexities := [];
       file_length := List.length raw;
       delimiter_locations := delimiter_locations;
       quote_locations := quote_locations;
       quote_can_start := quote_valid;
       quote_can_end := quote_valid |}.

(** [self.class_counts[i] -= 1] on a [usize]: with overflow checks (the
    crate's debug and test builds) it panics below zero; an index past the
    array panics too. *)
Fixpoint decr_at (i : nat) (l : list nat) : option (list nat) :=
  match l, i with
  | [], _ => None
  | 0 :: _, 0 => None
  | S x :: l', 0 => Some (x :: l')
  | x :: l', S i' => let? l'' := decr_at i' l' in Some (x :: l'')
  end.

(** [ColumnComplexity::remove_bytes]. *)
Definition remove_bytes (self : ColumnComplexity) (bytes : list Byte.byte)
  : option ColumnComplexity :=
  let? counts :=
    fold_left (fun acc byte =>
                 let? counts := acc in
                 decr_at (class_index (from_byte byte)) counts)
      bytes (Some (class_counts self)) in
  Some {| class_counts := counts |}.

(** [iter.enumerate()]. *)
Fixpoint enumerate_from {A} (n : nat) (l : list A) : list (nat * A) :=
  match l with
  | [] => []
  | x :: l' => (n, x) :: enumerate_from (S n) l'
  end.

(** The [skip_while] predicate [!mask[q_ix] || !quote_valid[q_ix]] of
    [iter_quote_pairs]: indexing a [BitVec] out of bounds panics, and
    [||] does not evaluate its right side when the left one holds. *)
Definition skip_quote (mask quote_valid : Mask) (q_ix : nat) : option bool :=
  let? a := nth_error mask q_ix in
  if negb a then Some true
  else let? v := nth_error quote_valid q_ix in Some (negb v).

(** The iterator of [iter_quote_pairs], run to its end.  Each call of the
    [from_fn] closure skips the enumerated quotes up to one that can
    start, then up to a later one that can end, both on the one shared
    iterator; [start] is [Some start_byte] while the second search runs.
    When a search exhausts the iterator, [?] returns [None] and the
    iteration ends: a start without an end is dropped. *)
Fixpoint quote_pairs (can_start can_end quote_valid : Mask)
    (start : option nat) (quotes : list (nat * nat))
  : option (list (nat * nat)) :=
  match quotes with
  | [] => Some []
  | (q_ix, q_byte) :: quotes' =>
      match start with
      | None =>
          let? skip := skip_quote can_start quote_valid q_ix in
          if skip then quote_pairs can_start can_end quote_valid None quotes'
          else quote_pairs can_start can_end quote_valid (Some q_byte) quotes'
      | Some start_byte =>
          let? skip := skip_quote can_end quote_valid q_ix in
          if skip then quote_pairs can_start can_end quote_valid start quotes'
          else
            let? pairs :=
              quote_pairs can_start can_end quote_valid None quotes' in
            Some ((start_byte, q_byte) :: pairs)
      end
  end.

(** [Solution::iter_quote_pairs], collected; [None] is a panic met on the
    way.  As in [new], the undeclared field [self.quote_valid] is the
    parameter [quote_valid]. *)
Definition iter_quote_pairs (self : Solution) (quote_valid : Mask)
  : option (list (nat * nat)) :=
  quote_pairs (quote_can_start self) (quote_can_end self) quote_valid None
    (enumerate_from 0 (quote_locations self)).

End Medium.

(** * Properties of [src/csv/easy.rs] *)
Module EasyFacts.
Import Easy.

Lemma split_on_not_nil (d : char) (s : list char) : split_on d s <> [].
Proof.
  induction s as [|c s IH]; simpl; [discriminate|].
  destruct (N.eqb c d); [discriminate|].
  destruct (split_on d s); discriminate.
Qed.

(** Outside quotes, a line without quote chars is split at every
    delimiter. *)
Lemma tokenize_no_quote (d q : char) (l : list char) :
  ~ In q l ->
  forall row cur,
    tokenize d q l row cur false =
    row ++ match split_on d l with
           | f :: fs => (cur ++ f) :: fs
           | [] => [cur]
           end.
Proof.
  induction l as [|c l IH]; intros Hq row cur.
  - simpl. rewrite app_nil_r. reflexivity.
  - assert (Hc : c <> q) by (intro E; apply Hq; left; exact E).
    assert (Hl : ~ In q l) by (intro E; apply Hq; right; exact E).
    simpl. rewrite (proj2 (N.eqb_neq c q) Hc).
    destruct (N.eqb c d) eqn:Ecd; simpl.
    + rewrite (IH Hl).
      pose proof (split_on_not_nil d l) as Hne.
      destruct (split_on d l) as [|f fs]; [congruence|].
      rewrite <- app_assoc. rewrite app_nil_r. reflexivity.
    + rewrite (IH Hl).
      pose proof (split_on_not_nil d l) as Hne.
      destruct (split_on d l) as [|f fs]; [congruence|].
      rewrite <- app_assoc. reflexivity.
Qed.

Lemma parse_line_no_quote (d q : char) (line : rust_string) :
  ~ In q line -> parse_line d q line = split_on d line.
Proof.
  intro Hq. unfold parse_line. rewrite (tokenize_no_quote d q line Hq).
  simpl. pose proof (split_on_not_nil d line) as Hne.
  destruct (split_on d line); [congruence|reflexivity].
Qed.

Lemma nth_error_map_enumerate {A B} (f : nat -> A -> B) (l : list A) :
  forall n k,
    nth_error (map_enumerate f n l) k = option_map (f (n + k)) (nth_error l k).
Proof.
  induction l as [|x l IH]; intros n k; [destruct k; reflexivity|].
  destruct k as [|k]; simpl.
  - rewrite Nat.add_0_r. reflexivity.
  - rewrite IH. rewrite Nat.add_succ_r. reflexivity.
Qed.

Lemma nth_error_stream (reader : Reader) (d q : char)
    (idx e k : nat) :
  nth_error (fast_stream_csv_with_unescaped_delimiters reader d q idx e) k =
  option_map (resolve_row d idx e k)
    (nth_error (fast_stream_valid_csv reader d q) k).
Proof.
  unfold fast_stream_csv_with_unescaped_delimiters.
  rewrite nth_error_map_enumerate. reflexivity.
Qed.

(** Opening a quoted field. *)
Lemma tokenize_open_quote (d q : char) rest row cur :
  tokenize d q (q :: rest) row cur false = tokenize d q rest row cur true.
Proof.
  destruct rest; simpl; rewrite N.eqb_refl; reflexivity.
Qed.

(** The escaping convention: a field is wrapped in quotes and each quote
    inside it is doubled. *)
Fixpoint escape (q : char) (s : rust_string) : rust_string :=
  match s with
  | [] => []
  | c :: s' => if N.eqb c q then q :: q :: escape q s' else c :: escape q s'
  end.

Definition quote_field (q : char) (s : rust_string) : rust_string :=
  q :: escape q s ++ [q].

(** Inside quotes, the escaped text up to the closing quote is read back
    literally. *)
Lemma tokenize_escaped (d q : char) (s : rust_string) :
  forall rest row cur,
    match rest with c :: _ => c <> q | [] => True end ->
    tokenize d q (escape q s ++ q :: rest) row cur true =
    tokenize d q rest row (cur ++ s) false.
Proof.
  induction s as [|c s IH]; intros rest row cur Hrest.
  - simpl. rewrite app_nil_r. rewrite N.eqb_refl.
    destruct rest as [|c rest]; [reflexivity|].
    rewrite (proj2 (N.eqb_neq c q) Hrest). reflexivity.
  - simpl. destruct (N.eqb c q) eqn:Ecq.
    + apply N.eqb_eq in Ecq. subst c. simpl. rewrite N.eqb_refl. simpl.
      rewrite (IH rest row (cur ++ [q]) Hrest).
      rewrite <- app_assoc. reflexivity.
    + simpl. rewrite Ecq. rewrite andb_false_r.
      rewrite (IH rest row (cur ++ [c]) Hrest).
      rewrite <- app_assoc. reflexivity.
Qed.

(** An unquoted delimiter ends the current field. *)
Lemma tokenize_delimiter (d q : char) (Hdq : d <> q) rest row cur :
  tokenize d q (d :: rest) row cur false = tokenize d q rest (row ++ [cur]) [] false.
Proof.
  simpl. rewrite (proj2 (N.eqb_neq d q) Hdq), N.eqb_refl. reflexivity.
Qed.

Lemma tokenize_quoted_row (d q : char) (Hdq : d <> q)
    (cells : list rust_string) :
  cells <> [] ->
  forall row,
    tokenize d q (join [d] (map (quote_field q) cells)) row [] false =
    row ++ cells.
Proof.
  induction cells as [|x cells IH]; intros Hne row; [congruence|].
  destruct cells as [|y cells].
  - change (join [d] (map (quote_field q) [x])) with (q :: escape q x ++ [q]).
    rewrite tokenize_open_quote.
    rewrite (tokenize_escaped d q x [] row [] I). reflexivity.
  - change (join [d] (map (quote_field q) (x :: y :: cells)))
      with (quote_field q x ++ [d] ++ join [d] (map (quote_field q) (y :: cells))).
    unfold quote_field at 1. rewrite <- app_comm_cons.
    rewrite tokenize_open_quote. rewrite <- app_assoc. rewrite <- app_comm_cons.
    cbn [app].
    rewrite (tokenize_escaped d q x (d :: join [d] (map (quote_field q) (y :: cells))) row [] Hdq).
    rewrite (tokenize_delimiter d q Hdq). rewrite app_nil_l.
    rewrite (IH ltac:(discriminate) (row ++ [x])).
    rewrite <- app_assoc. reflexivity.
Qed.

(** [tokenize] always pushes the last field. *)
Lemma tokenize_extends (d q : char) :
  forall n (l : list char), List.length l <= n ->
  forall row cur w, exists rows,
    tokenize d q l row cur w = row ++ rows /\ rows <> [].
Proof.
  induction n as [|n IH]; intros l Hl row cur w.
  - destruct l; [|simpl in Hl; lia].
    exists [cur]. split; [reflexivity|discriminate].
  - destruct l as [|ch rest]; [exists [cur]; split; [reflexivity|discriminate]|].
    simpl in Hl. simpl.
    destruct (N.eqb ch q).
    + destruct rest as [|c rest'].
      * apply IH. simpl. lia.
      * destruct (w && N.eqb c q).
        -- apply IH. simpl in Hl. lia.
        -- apply IH. exact (le_S_n _ _ Hl).
    + destruct (N.eqb ch d && negb w).
      * destruct (IH rest (le_S_n _ _ Hl) (row ++ [cur]) [] w) as [rows [E H]].
        exists ([cur] ++ rows). rewrite E, <- app_assoc. split; [reflexivity|].
        discriminate.
      * apply IH. exact (le_S_n _ _ Hl).
Qed.

Lemma parse_line_not_nil (d q : char) (line : rust_string) :
  parse_line d q line <> [].
Proof.
  unfold parse_line.
  destruct (tokenize_extends d q (List.length line) line (le_n _) [] [] false)
    as [rows [E H]].
  rewrite E. exact H.
Qed.

Lemma nth_error_valid (reader : Reader) (d q : char) (k : nat) :
  nth_error (fast_stream_valid_csv reader d q) k =
  option_map (fun line_result =>
                match line_result with
                | Err e => Err (from_io e)
                | Ok line => Ok (parse_line d q line)
                end) (nth_error reader k).
Proof. unfold fast_stream_valid_csv. apply nth_error_map. Qed.

Lemma lines_aux_line (l rest : list char) : ~ In LF l ->
  forall cur, lines_aux (l ++ LF :: rest) cur = strip_cr (cur ++ l) :: lines_aux rest [].
Proof.
  induction l as [|c l IH]; intros Hl cur.
  - simpl. rewrite app_nil_r. reflexivity.
  - simpl. assert (Hc : c <> LF) by (intro E; apply Hl; left; exact E).
    rewrite (proj2 (N.eqb_neq c LF) Hc).
    rewrite IH by (intro E; apply Hl; right; exact E).
    rewrite <- app_assoc. reflexivity.
Qed.

Lemma in_escape (q x : char) (s : rust_string) : In x (escape q s) -> x = q \/ In x s.
Proof.
  induction s as [|c s IH]; simpl; [tauto|].
  destruct (N.eqb c q) eqn:E; simpl.
  - intros [H|[H|H]]; [left; congruence|left; congruence|].
    destruct (IH H); tauto.
  - intros [H|H]; [tauto|]. destruct (IH H); tauto.
Qed.

Lemma in_join (sep : rust_string) (x : char) : forall xs : list rust_string,
  In x (join sep xs) -> In x sep \/ exists y, In y xs /\ In x y.
Proof.
  induction xs as [|y xs IH]; simpl; [tauto|].
  destruct xs as [|y' xs].
  - intro H. right. exists y. tauto.
  - intro H. apply in_app_or in H. destruct H as [H|H]; [right; exists y; tauto|].
    apply in_app_or in H. destruct H as [H|H]; [tauto|].
    destruct (IH H) as [H'|[z [Hz Hxz]]]; [tauto|]. right. exists z. tauto.
Qed.

(** The escaping convention per field of a row: a field is written as it
    is ([false]) or quoted with [quote_field] ([true]). *)
Definition encode_field (q : char) (f : bool * rust_string) : rust_string :=
  if fst f then quote_field q (snd f) else snd f.

(** A row of such fields, separated by the delimiter. *)
Definition encode_row (d q : char) (fields : list (bool * rust_string))
  : rust_string :=
  join [d] (map (encode_field q) fields).

(** Rows of such fields, each ended by LF. *)
Definition encode_rows (d q : char) (rows : list (list (bool * rust_string)))
  : list char :=
  List.concat (map (fun row => encode_row d q row ++ [LF]) rows).

(** A field written as it is holds neither the delimiter nor the quote. *)
Definition plain_ok (d q : char) (f : bool * rust_string) : Prop :=
  fst f = false -> ~ In d (snd f) /\ ~ In q (snd f).

(** Outside quotes, text without delimiter and quote goes to the current
    field. *)
Lemma tokenize_plain (d q : char) (s : rust_string) :
  ~ In d s -> ~ In q s ->
  forall rest row cur,
    tokenize d q (s ++ rest) row cur false =
    tokenize d q rest row (cur ++ s) false.
Proof.
  induction s as [|c s IH]; intros Hd Hq rest row cur.
  - rewrite app_nil_r. reflexivity.
  - cbn [app tokenize].
    rewrite (proj2 (N.eqb_neq c q)) by (intro E; apply Hq; left; exact E).
    rewrite (proj2 (N.eqb_neq c d)) by (intro E; apply Hd; left; exact E).
    cbn [andb negb].
    rewrite (IH (fun E => Hd (or_intror E)) (fun E => Hq (or_intror E))).
    rewrite <- app_assoc. reflexivity.
Qed.

Lemma tokenize_encoded_row (d q : char) (Hdq : d <> q)
    (fields : list (bool * rust_string)) :
  fields <> [] -> Forall (plain_ok d q) fields ->
  forall row,
    tokenize d q (encode_row d q fields) row [] false = row ++ map snd fields.
Proof.
  induction fields as [|x fields IH]; intros Hne Hok row; [congruence|].
  inversion Hok as [|? ? Hx Hrest]; subst.
  destruct fields as [|y fields].
  - change (encode_row d q [x]) with (encode_field q x).
    destruct x as [[|] s]; unfold encode_field; cbn [fst snd].
    + unfold quote_field. rewrite tokenize_open_quote.
      rewrite (tokenize_escaped d q s [] row [] I). reflexivity.
    + destruct (Hx eq_refl) as [Hd Hq]. cbn [snd] in Hd, Hq.
      pose proof (tokenize_plain d q s Hd Hq [] row []) as E.
      rewrite app_nil_r in E. rewrite E. reflexivity.
  - change (encode_row d q (x :: y :: fields))
      with (encode_field q x ++ [d] ++ encode_row d q (y :: fields)).
    destruct x as [[|] s]; unfold encode_field; cbn [fst snd].
    + unfold quote_field. rewrite <- app_comm_cons.
      rewrite tokenize_open_quote. rewrite <- app_assoc. rewrite <- app_comm_cons.
      cbn [app].
      rewrite (tokenize_escaped d q s (d :: encode_row d q (y :: fields)) row [] Hdq).
      rewrite (tokenize_delimiter d q Hdq). rewrite app_nil_l.
      rewrite (IH ltac:(discriminate) Hrest (row ++ [s])).
      rewrite <- app_assoc. reflexivity.
    + destruct (Hx eq_refl) as [Hd Hq]. cbn [snd] in Hd, Hq.
      rewrite (tokenize_plain d q s Hd Hq). cbn [app].
      rewrite (tokenize_delimiter d q Hdq).
      rewrite (IH ltac:(discriminate) Hrest (row ++ [s])).
      rewrite <- app_assoc. reflexivity.
Qed.

Lemma not_in_encode_row (d q x : char) (fields : list (bool * rust_string)) :
  x <> d -> x <> q -> Forall (fun f => ~ In x (snd f)) fields ->
  ~ In x (encode_row d q fields).
Proof.
  intros Hd Hq Hf H. apply in_join in H.
  destruct H as [[H|[]]|[y [Hy Hx]]]; [congruence|].
  apply in_map_iff in Hy. destruct Hy as [[b s] [E Hs]]. subst y.
  rewrite Forall_forall in Hf. specialize (Hf (b, s) Hs). cbn [snd] in Hf.
  unfold encode_field in Hx. cbn [fst snd] in Hx. destruct b; [|exact (Hf Hx)].
  unfold quote_field in Hx. destruct Hx as [Hx|Hx]; [congruence|].
  apply in_app_or in Hx. destruct Hx as [Hx|[Hx|[]]]; [|congruence].
  destruct (in_escape q x s Hx) as [E|E]; [congruence|exact (Hf E)].
Qed.

Lemma strip_cr_no_cr (l : list char) : ~ In CR l -> strip_cr l = l.
Proof.
  intro H. unfold strip_cr. destruct (rev l) as [|c r] eqn:E; [reflexivity|].
  destruct (N.eqb c CR) eqn:Ec; [|reflexivity].
  apply N.eqb_eq in Ec. subst c. exfalso. apply H. apply in_rev.
  rewrite E. left. reflexivity.
Qed.

End EasyFacts.

(** * Claims about [src/csv/easy.rs] *)
Module EasyClaims.
Import Easy EasyFacts.

Definition comma : char := 44%N.
Definition dquote : char := 34%N.

(** The input of [test_fast_stream_valid_csv]. *)
Definition scenario1 : list char :=
  chars_of "a,b,c" ++ [LF] ++ chars_of "1,2,3" ++ [LF] ++ chars_of "4,5,6".

Definition scenario2 : list char :=
  chars_of "a,b,c" ++ [LF] ++ chars_of "1,2,3" ++ [LF]
    ++ chars_of "4,5,6,7,8,9".

Definition scenario3 : list char :=
  chars_of "a,b,c" ++ [LF] ++ chars_of "1,2,3" ++ [LF] ++ chars_of "4,5".

(** C1: [fast_stream_valid_csv] splits well-formed lines at the
    delimiters outside quotes.  A line made of fields, each written as
    it is (without delimiter or quote) or quoted with its inner quotes
    doubled, is read back as exactly those fields; a text of such rows,
    each ended by LF and with no LF or CR in a field, is read back as
    exactly those rows and nothing more; a line without quote chars is
    split at every delimiter; on [a,b,c] / [1,2,3] / [4,5,6] it yields
    the three rows and nothing more. *)
Theorem fast_stream_valid_csv_trivial_tokenization :
  (forall (delimiter quote : char) (fields : list (bool * rust_string)),
     delimiter <> quote -> fields <> [] ->
     Forall (plain_ok delimiter quote) fields ->
     parse_line delimiter quote (encode_row delimiter quote fields)
     = map snd fields)
  /\ (forall (delimiter quote : char)
             (rows : list (list (bool * rust_string))),
        delimiter <> quote -> ~ In delimiter [LF; CR] -> ~ In quote [LF; CR] ->
        Forall (fun row => row <> [] /\
                  Forall (fun f => plain_ok delimiter quote f
                                   /\ ~ In LF (snd f) /\ ~ In CR (snd f)) row)
          rows ->
        fast_stream_valid_csv (cursor (encode_rows delimiter quote rows))
          delimiter quote
        = map (fun row => Ok (map snd row)) rows)
  /\ (forall (reader : Reader) (delimiter quote : char),
        (forall line, In (Ok line) reader -> ~ In quote line) ->
        fast_stream_valid_csv reader delimiter quote =
        map (fun line_result =>
               match line_result with
               | Ok line => Ok (split_on delimiter line)
               | Err e => Err (Io e)
               end) reader)
  /\ fast_stream_valid_csv (cursor scenario1) comma dquote =
     [Ok (map chars_of (["a"; "b"; "c"])%string);
      Ok (map chars_of (["1"; "2"; "3"])%string);
      Ok (map chars_of (["4"; "5"; "6"])%string)].
Proof.
  split; [|split; [|split; [|reflexivity]]].
  - intros d q fields Hdq Hne Hok. unfold parse_line.
    rewrite (tokenize_encoded_row d q Hdq fields Hne Hok []). reflexivity.
  - intros d q rows Hdq Hd Hq Hrows.
    induction rows as [|row rows IH]; [reflexivity|].
    inversion Hrows as [|? ? [Hne Hf] Hrest]; subst.
    assert (Hok : Forall (plain_ok d q) row)
      by (eapply Forall_impl; [|exact Hf]; intros f Hx; apply Hx).
    assert (HLF : ~ In LF (encode_row d q row)).
    { apply not_in_encode_row;
        [intro E; apply Hd; left; exact E
        |intro E; apply Hq; left; exact E|].
      eapply Forall_impl; [|exact Hf]; intros f Hx; apply Hx. }
    assert (HCR : ~ In CR (encode_row d q row)).
    { apply not_in_encode_row;
        [intro E; apply Hd; right; left; exact E
        |intro E; apply Hq; right; left; exact E|].
      eapply Forall_impl; [|exact Hf]; intros f Hx; apply Hx. }
    unfold encode_rows, cursor. cbn [map List.concat].
    rewrite <- app_assoc. cbn [app].
    rewrite (lines_aux_line _ _ HLF). rewrite app_nil_l.
    rewrite (strip_cr_no_cr _ HCR).
    cbn [map fast_stream_valid_csv]. f_equal.
    + unfold parse_line. rewrite (tokenize_encoded_row d q Hdq row Hne Hok []).
      reflexivity.
    + exact (IH Hrest).
  - intros reader delimiter quote H.
    unfold fast_stream_valid_csv. apply map_ext_in.
    intros [line|e] Hin; [|reflexivity].
    rewrite (parse_line_no_quote delimiter quote line (H line Hin)).
    reflexivity.
Qed.

(** The field [a,b] in quotes, then the plain field [c]; and a second row
    with the plain field [1], then [2], a quote and [x], in quotes. *)
Definition fields_ab_c : list (bool * rust_string) :=
  [(true, chars_of "a,b"); (false, chars_of "c")].

Definition rows_mixed : list (list (bool * rust_string)) :=
  [fields_ab_c; [(false, chars_of "1"); (true, chars_of "2" ++ [dquote] ++ chars_of "x")]].

Lemma fast_stream_valid_csv_trivial_tokenization_witness :
  encode_row comma dquote fields_ab_c
    = [dquote] ++ chars_of "a,b" ++ [dquote] ++ chars_of ",c" /\
  parse_line comma dquote (encode_row comma dquote fields_ab_c)
    = [chars_of "a,b"; chars_of "c"] /\
  fast_stream_valid_csv (cursor (encode_rows comma dquote rows_mixed)) comma dquote
    = map (fun row => Ok (map snd row)) rows_mixed /\
  fast_stream_valid_csv (cursor scenario1) comma dquote =
  map (fun line_result =>
         match line_result with
         | Ok line => Ok (split_on comma line)
         | Err e => Err (Io e)
         end) (cursor scenario1).
Proof.
  split; [reflexivity|].
  split; [|split].
  - apply (proj1 fast_stream_valid_csv_trivial_tokenization);
      [discriminate|discriminate|].
    unfold fields_ab_c. repeat apply Forall_cons; try apply Forall_nil;
      unfold plain_ok; simpl; intro Hf; try discriminate;
      split; intuition discriminate.
  - apply (proj1 (proj2 fast_stream_valid_csv_trivial_tokenization));
      [discriminate|simpl; intuition discriminate|simpl; intuition discriminate|].
    unfold rows_mixed, fields_ab_c.
    repeat apply Forall_cons; try apply Forall_nil; (split; [discriminate|]);
      repeat apply Forall_cons; try apply Forall_nil;
      unfold plain_ok; simpl;
      (split; [intro Hf; try discriminate; split; intuition discriminate
              |split; intuition discriminate]).
  - apply (proj1 (proj2 (proj2 fast_stream_valid_csv_trivial_tokenization))).
    intros line Hin. vm_compute in Hin.
    repeat (destruct Hin as [Hin|Hin]; [inversion Hin; subst; vm_compute; intuition discriminate|]).
    destruct Hin.
Defined.

(** The merge of [resolve_row] on a row with too many fields. *)
Lemma resolve_row_excess (d : char) (idx e line : nat) (row : list rust_string) :
  e < List.length row ->
  resolve_row d idx e line (Ok row) =
  Ok (firstn idx row
      ++ [join [d] (firstn (List.length row - e + 1) (skipn idx row))]
      ++ skipn (idx + (List.length row - e + 1)) row).
Proof.
  intro H. unfold resolve_row.
  rewrite (proj2 (Nat.ltb_ge (List.length row) e)) by lia.
  rewrite (proj2 (Nat.ltb_lt e (List.length row)) H).
  rewrite skipn_skipn. rewrite (Nat.add_comm idx). reflexivity.
Qed.

(** C2 (counterexample): with an absorbing index past the expected
    column count, a 4-field row for 3 expected columns comes out with 5
    fields. *)
Lemma unescaped_delimiters_index_out_of_range :
  fast_stream_csv_with_unescaped_delimiters
    (cursor (chars_of "1,2,3,4")) comma dquote 5 3 =
  [Ok (map chars_of (["1"; "2"; "3"; "4"; EmptyString])%string)]
  /\ List.length (map chars_of (["1"; "2"; "3"; "4"; EmptyString])%string) <> 3.
Proof. split; [reflexivity | discriminate]. Qed.

(** C2 (amended): when the absorbing index is below the expected column
    count, a row with more fields than expected becomes a row of exactly
    the expected count: the fields before the index unchanged, then the
    excess fields joined with the delimiter, then the remaining fields
    unchanged.  When the index is at or past the expected count, such a
    row becomes its first [index] fields followed by one field joining
    the rest with the delimiter (empty when the index is at or past the
    row's length): it keeps min(index, length) + 1 fields, more than
    expected.  The third row of [a,b,c] / [1,2,3] / [4,5,6,7,8,9] with
    index 2 and count 3 becomes [4, 5, "6,7,8,9"]. *)
Theorem unescaped_delimiters_merge_excess :
  (forall (reader : Reader) (delimiter quote : char)
          (invalid_column_index expected_column_count k : nat)
          (row : list rust_string),
     invalid_column_index < expected_column_count ->
     nth_error (fast_stream_valid_csv reader delimiter quote) k = Some (Ok row) ->
     expected_column_count < List.length row ->
     let excess := List.length row - expected_column_count + 1 in
     let merged :=
       firstn invalid_column_index row
       ++ [join [delimiter] (firstn excess (skipn invalid_column_index row))]
       ++ skipn (invalid_column_index + excess) row in
     nth_error (fast_stream_csv_with_unescaped_delimiters reader delimiter
                  quote invalid_column_index expected_column_count) k
     = Some (Ok merged)
     /\ List.length merged = expected_column_count)
  /\ (forall (reader : Reader) (delimiter quote : char)
             (invalid_column_index expected_column_count k : nat)
             (row : list rust_string),
        expected_column_count <= invalid_column_index ->
        nth_error (fast_stream_valid_csv reader delimiter quote) k = Some (Ok row) ->
        expected_column_count < List.length row ->
        let kept := firstn invalid_column_index row
                    ++ [join [delimiter] (skipn invalid_column_index row)] in
        nth_error (fast_stream_csv_with_unescaped_delimiters reader delimiter
                     quote invalid_column_index expected_column_count) k
        = Some (Ok kept)
        /\ List.length kept = Nat.min invalid_column_index (List.length row) + 1
        /\ expected_column_count < List.length kept)
  /\ nth_error (fast_stream_csv_with_unescaped_delimiters
                  (cursor scenario2) comma dquote 2 3) 2 =
     Some (Ok (map chars_of (["4"; "5"; "6,7,8,9"])%string)).
Proof.
  split; [|split; [|reflexivity]].
  - intros reader delimiter quote idx e k row Hidx Hrow He excess merged.
    rewrite nth_error_stream, Hrow. cbn [option_map].
    rewrite (resolve_row_excess delimiter idx e k row He).
    split; [reflexivity|].
    subst merged excess. rewrite !length_app. simpl.
    rewrite length_firstn, length_skipn. lia.
  - intros reader delimiter quote idx e k row Hidx Hrow He kept.
    rewrite nth_error_stream, Hrow. cbn [option_map].
    rewrite (resolve_row_excess delimiter idx e k row He).
    rewrite (firstn_all2 (n := List.length row - e + 1))
      by (rewrite length_skipn; lia).
    rewrite (skipn_all2 (n := idx + (List.length row - e + 1))) by lia.
    rewrite app_nil_r.
    assert (Hl : List.length kept = Nat.min idx (List.length row) + 1)
      by (subst kept; rewrite length_app, length_firstn; reflexivity).
    split; [reflexivity|]. split; [exact Hl|]. rewrite Hl. lia.
Qed.

Lemma unescaped_delimiters_merge_excess_witness :
  nth_error (fast_stream_valid_csv (cursor scenario2) comma dquote) 2 =
    Some (Ok (map chars_of (["4"; "5"; "6"; "7"; "8"; "9"])%string)) /\
  nth_error (fast_stream_csv_with_unescaped_delimiters
               (cursor scenario2) comma dquote 2 3) 2 =
    Some (Ok (map chars_of (["4"; "5"; "6,7,8,9"])%string)) /\
  nth_error (fast_stream_csv_with_unescaped_delimiters
               (cursor scenario2) comma dquote 4 3) 2 =
    Some (Ok (map chars_of (["4"; "5"; "6"; "7"; "8,9"])%string)).
Proof.
  split; [reflexivity|]. split.
  - refine (proj1 (proj1 unescaped_delimiters_merge_excess
                     (cursor scenario2) comma dquote 2 3 2
                     (map chars_of (["4"; "5"; "6"; "7"; "8"; "9"])%string)
                     _ _ _)).
    + lia.
    + reflexivity.
    + simpl. lia.
  - refine (proj1 (proj1 (proj2 unescaped_delimiters_merge_excess)
                     (cursor scenario2) comma dquote 4 3 2
                     (map chars_of (["4"; "5"; "6"; "7"; "8"; "9"])%string)
                     _ _ _)).
    + lia.
    + reflexivity.
    + simpl. lia.
Defined.

(** C3: a row with fewer fields than expected gives [Invalid] at
    [{line: k, column: expected_column_count}] with a non-empty cause;
    on [a,b,c] / [1,2,3] / [4,5] the first two rows pass and the third
    fails at [{line: 2, column: 3}]. *)
Theorem unescaped_delimiters_too_few_columns :
  (forall (reader : Reader) (delimiter quote : char)
          (invalid_column_index expected_column_count k : nat)
          (row : list rust_string),
     nth_error (fast_stream_valid_csv reader delimiter quote) k = Some (Ok row) ->
     List.length row < expected_column_count ->
     nth_error (fast_stream_csv_with_unescaped_delimiters reader delimiter
                  quote invalid_column_index expected_column_count) k
     = Some (Err (Invalid {| line := k; column := expected_column_count |}
                    not_enough_columns)))
  /\ not_enough_columns <> EmptyString
  /\ fast_stream_csv_with_unescaped_delimiters (cursor scenario3) comma
       dquote 2 3 =
     [Ok (map chars_of (["a"; "b"; "c"])%string);
      Ok (map chars_of (["1"; "2"; "3"])%string);
      Err (Invalid {| line := 2; column := 3 |} not_enough_columns)].
Proof.
  split; [|split; [discriminate|reflexivity]].
  intros reader delimiter quote idx e k row Hrow Hlt.
  rewrite nth_error_stream, Hrow. simpl. unfold resolve_row.
  rewrite (proj2 (Nat.ltb_lt _ _) Hlt). reflexivity.
Qed.

Lemma unescaped_delimiters_too_few_columns_witness :
  nth_error (fast_stream_valid_csv (cursor scenario3) comma dquote) 2 =
    Some (Ok (map chars_of (["4"; "5"])%string)) /\
  nth_error (fast_stream_csv_with_unescaped_delimiters
               (cursor scenario3) comma dquote 2 3) 2 =
    Some (Err (Invalid {| line := 2; column := 3 |} not_enough_columns)).
Proof.
  split; [reflexivity|].
  apply (proj1 unescaped_delimiters_too_few_columns
           (cursor scenario3) comma dquote 2 3 2
           (map chars_of (["4"; "5"])%string)).
  - reflexivity.
  - simpl. lia.
Defined.

(** The cell [a], quote, [b], and its quoted form. *)
Definition cell_a_b : rust_string := chars_of "a" ++ [dquote] ++ chars_of "b".
Definition quoted_a_b : list char :=
  [dquote] ++ chars_of "a" ++ [dquote; dquote] ++ chars_of "b" ++ [dquote].

(** C8: a cell written in quotes with each inner quote doubled is read
    back with each doubled quote as one quote, for every row of such
    cells; the quoted field made of a quote, [a], two quotes, [b] and a
    quote reads as the cell [a], quote, [b]. *)
Theorem doubled_quote_unescaped :
  (forall (delimiter quote : char) (cells : list rust_string),
     delimiter <> quote -> cells <> [] ->
     parse_line delimiter quote
       (join [delimiter] (map (quote_field quote) cells)) = cells)
  /\ fast_stream_valid_csv (cursor quoted_a_b) comma dquote
     = [Ok [cell_a_b]].
Proof.
  split; [|reflexivity].
  intros delimiter quote cells Hdq Hne. unfold parse_line.
  rewrite (tokenize_quoted_row delimiter quote Hdq cells Hne []).
  reflexivity.
Qed.

Lemma doubled_quote_unescaped_witness :
  comma <> dquote /\
  parse_line comma dquote
    (join [comma] (map (quote_field dquote) [cell_a_b; chars_of "x,y"]))
  = [cell_a_b; chars_of "x,y"].
Proof.
  split; [discriminate|].
  apply (proj1 doubled_quote_unescaped); discriminate.
Defined.

(** C10: every item of [fast_stream_valid_csv] is either [Ok] of a row
    with at least one field, for a line of the reader, or [Err (Io e)]
    for an error [e] of the reader; an empty line gives a row of one empty field. *)
Theorem fast_stream_valid_csv_only_io_errors :
  (forall (reader : Reader) (delimiter quote : char) (k : nat)
          (r : Result (list rust_string)),
     nth_error (fast_stream_valid_csv reader delimiter quote) k = Some r ->
     (exists line, nth_error reader k = Some (Ok line)
                   /\ r = Ok (parse_line delimiter quote line)
                   /\ 1 <= List.length (parse_line delimiter quote line))
     \/ (exists e, nth_error reader k = Some (Err e) /\ r = Err (Io e)))
  /\ (forall delimiter quote : char, parse_line delimiter quote [] = [[]]).
Proof.
  split; [|reflexivity].
  intros reader delimiter quote k r H.
  rewrite nth_error_valid in H.
  destruct (nth_error reader k) as [[line|e]|]; simpl in H; inversion H; subst.
  - left. exists line. split; [reflexivity|]. split; [reflexivity|].
    pose proof (parse_line_not_nil delimiter quote line).
    destruct (parse_line delimiter quote line); [congruence|simpl; lia].
  - right. exists e. split; reflexivity.
Qed.

Definition reader_io : Reader := [Ok []; Err "broken pipe"%string].

Lemma fast_stream_valid_csv_only_io_errors_witness :
  nth_error (fast_stream_valid_csv reader_io comma dquote) 1
    = Some (Err (Io "broken pipe")) /\
  ((exists line, nth_error reader_io 1 = Some (Ok line)
                 /\ Err (Io "broken pipe") = Ok (parse_line comma dquote line)
                 /\ 1 <= List.length (parse_line comma dquote line))
   \/ (exists e, nth_error reader_io 1 = Some (Err e)
                 /\ (Err (Io "broken pipe") : Result (list rust_string)) = Err (Io e))).
Proof.
  split; [reflexivity|].
  apply (proj1 fast_stream_valid_csv_only_io_errors
           reader_io comma dquote 1).
  reflexivity.
Defined.

End EasyClaims.

(** * Properties of the column statistics of [src/csv/medium.rs] *)
Module ColumnFacts.
Import Medium.

Fixpoint sum_sq (l : list nat) : nat :=
  match l with [] => 0 | x :: l' => x * x + sum_sq l' end.

Lemma add_bytes_one (h : ColumnComplexity) (b : Byte.byte) :
  add_bytes h [b] =
  {| class_counts := incr_at (class_index (from_byte b)) (class_counts h) |}.
Proof. reflexivity. Qed.

Lemma sum_incr_at : forall (l : list nat) j, j < List.length l ->
  sum_usize (incr_at j l) = S (sum_usize l).
Proof.
  induction l as [|x l IH]; intros j Hj; simpl in Hj; [lia|].
  destruct j as [|j]; simpl; [reflexivity|].
  rewrite IH by lia. lia.
Qed.

Lemma sum_sq_incr_at : forall (l : list nat) j, j < List.length l ->
  sum_sq (incr_at j l) = sum_sq l + 2 * nth j l 0 + 1.
Proof.
  induction l as [|x l IH]; intros j Hj; simpl in Hj; [lia|].
  destruct j as [|j]; simpl; [lia|].
  rewrite IH by lia. lia.
Qed.

Lemma sum_sq_le : forall (l : list nat) c,
  (forall x, In x l -> x <= c) -> sum_sq l <= c * sum_usize l.
Proof.
  induction l as [|x l IH]; intros c H; simpl; [lia|].
  assert (x <= c) by (apply H; left; reflexivity).
  assert (sum_sq l <= c * sum_usize l) by (apply IH; intros y Hy; apply H; right; exact Hy).
  nia.
Qed.

Lemma nth_le_sum : forall (l : list nat) j, nth j l 0 <= sum_usize l.
Proof.
  induction l as [|x l IH]; intros j; destruct j; simpl; try lia.
  specialize (IH j). lia.
Qed.

Lemma fold_sq (t : Q) (Ht : ~ (t == 0)%Q) : forall (l : list nat) (acc : Q),
  (fold_left (fun sum count =>
                let p := (inject_Z (Z.of_nat count) / t)%Q in (sum + p * p)%Q)
     l acc
   == acc + inject_Z (Z.of_nat (sum_sq l)) / (t * t))%Q.
Proof.
  induction l as [|x l IH]; intros acc; simpl.
  - unfold Qdiv. rewrite Qmult_0_l, Qplus_0_r. reflexivity.
  - rewrite IH. rewrite Nat2Z.inj_add, Nat2Z.inj_mul, inject_Z_plus, inject_Z_mult.
    field. exact Ht.
Qed.

Lemma gini_exact_eq (h : ColumnComplexity) :
  0 < sum_usize (class_counts h) ->
  (gini_impurity_exact h ==
   1 - inject_Z (Z.of_nat (sum_sq (class_counts h)))
       / (inject_Z (Z.of_nat (sum_usize (class_counts h)))
          * inject_Z (Z.of_nat (sum_usize (class_counts h)))))%Q.
Proof.
  intro Hn. unfold gini_impurity_exact. rewrite fold_sq.
  - rewrite Qplus_0_l. reflexivity.
  - intro E. unfold Qeq in E. simpl in E. lia.
Qed.

Lemma class_index_lt (c : CharacterClass) : class_index c < 9.
Proof. destruct c; simpl; lia. Qed.

Lemma Q_of_nat_pos (n : nat) : 0 < n ->
  (0 < inject_Z (Z.of_nat n) * inject_Z (Z.of_nat n))%Q.
Proof.
  intro H. rewrite <- inject_Z_mult. change 0%Q with (inject_Z 0).
  rewrite <- Zlt_Qlt. nia.
Qed.

(** In exact arithmetic, one more byte of a class with the largest
    count does not raise the impurity. *)
Lemma gini_exact_dominant_add (h : ColumnComplexity) (b : Byte.byte) :
  List.length (class_counts h) = 9 ->
  0 < sum_usize (class_counts h) ->
  (forall x, In x (class_counts h) ->
             x <= nth (class_index (from_byte b)) (class_counts h) 0) ->
  (gini_impurity_exact (add_bytes h [b]) <= gini_impurity_exact h)%Q.
Proof.
  intros Hlen Hn Hdom. rewrite add_bytes_one.
  pose proof (class_index_lt (from_byte b)) as Hj.
  set (j := class_index (from_byte b)) in *.
  set (l := class_counts h) in *.
  assert (Hs : sum_usize (incr_at j l) = S (sum_usize l))
    by (apply sum_incr_at; lia).
  assert (Hq : sum_sq (incr_at j l) = sum_sq l + 2 * nth j l 0 + 1)
    by (apply sum_sq_incr_at; lia).
  rewrite (gini_exact_eq {| class_counts := incr_at j l |}) by (simpl; lia).
  rewrite (gini_exact_eq h) by exact Hn.
  simpl class_counts. fold l. rewrite Hs, Hq.
  assert (Hle : sum_sq l <= nth j l 0 * sum_usize l) by (apply sum_sq_le; exact Hdom).
  assert (Hc : nth j l 0 <= sum_usize l) by apply nth_le_sum.
  set (n := sum_usize l) in *. set (c := nth j l 0) in *. set (sq := sum_sq l) in *.
  assert (key : sq * (S n * S n) <= (sq + 2 * c + 1) * (n * n)) by nia.
  unfold Qminus. apply Qplus_le_r. apply Qopp_le_compat.
  apply Qle_shift_div_l; [apply Q_of_nat_pos; lia|].
  setoid_replace
    (inject_Z (Z.of_nat sq) / (inject_Z (Z.of_nat n) * inject_Z (Z.of_nat n))
     * (inject_Z (Z.of_nat (S n)) * inject_Z (Z.of_nat (S n))))%Q
    with ((inject_Z (Z.of_nat sq) * (inject_Z (Z.of_nat (S n)) * inject_Z (Z.of_nat (S n))))
          / (inject_Z (Z.of_nat n) * inject_Z (Z.of_nat n)))%Q
    by (field; intro E; unfold Qeq in E; simpl in E; lia).
  apply Qle_shift_div_r; [apply Q_of_nat_pos; lia|].
  rewrite <- !inject_Z_mult. rewrite <- Zle_Qle.
  rewrite <- !Nat2Z.inj_mul. apply Nat2Z.inj_le. exact key.
Qed.

(** A count written as [Z.to_nat z] is converted to [f64] from [z]. *)
Lemma usize_as_f64_Z (z : Z) : (0 <= z)%Z ->
  usize_as_f64 (Z.to_nat z) = PrimFloat.of_uint63 (Uint63.of_Z z).
Proof. intro Hz. unfold usize_as_f64. rewrite Z2Nat.id by exact Hz. reflexivity. Qed.

End ColumnFacts.

(** * Claims about the column statistics and the classifier *)
Module ColumnClaims.
Import Medium ColumnFacts.

(** C9: [from_byte] gives every byte exactly one class; CR and LF are
    both [Newline]. *)
Theorem from_byte_total_newline :
  (forall b : Byte.byte, exists! c, from_byte b = c)
  /\ from_byte x0d = Newline /\ from_byte x0a = Newline.
Proof.
  split; [|split; reflexivity].
  intro b. exists (from_byte b). split; [reflexivity|].
  intros c E. exact E.
Qed.

(** C6: the impurity of a column with no bytes is NaN, outside [[0, 1]]:
    [sum::<usize>() as f64] is 0 and each [count / total] is 0/0. *)
Theorem gini_impurity_empty_is_nan :
  let g := gini_impurity (from_byte_slice_iter []) in
  PrimFloat.is_nan g = true
  /\ (0 <=? g)%float = false /\ (g <=? 1)%float = false.
Proof. vm_compute. repeat split. Qed.

(** A column of ten digits, nine letters and one punctuation byte. *)
Definition ten_nine_one : ColumnComplexity :=
  from_byte_slice_iter
    [list_byte_of_string "0123456789"; list_byte_of_string "abcdefghi";
     list_byte_of_string "."].

Definition letter_j : Byte.byte := "j"%byte.

(** A column of 61794578 digits and 61794577 letters, and a digit. *)
Definition near_tie : ColumnComplexity :=
  {| class_counts := [Z.to_nat 61794578; Z.to_nat 61794577; 0; 0; 0; 0; 0; 0; 0] |}.

Definition digit_0 : Byte.byte := "0"%byte.

(** C7 (counterexample): both halves fail for the [f64] impurity.  With
    counts 61794578 digits and 61794577 letters, the digits have the
    largest count, yet one more digit raises the impurity from
    0.4999999999999999 to 0.5 by rounding; with counts 10 digits,
    9 letters, 1 punctuation, one more letter (a minority class) lowers
    it, from about 0.5450 to about 0.5442. *)
Lemma gini_add_byte_counterexample :
  (from_byte digit_0 = Digit
   /\ Forall (fun x => x <= nth (class_index (from_byte digit_0))
                                (class_counts near_tie) 0)
        (class_counts near_tie)
   /\ (gini_impurity near_tie <? gini_impurity (add_bytes near_tie [digit_0]))%float
      = true
   /\ gini_impurity (add_bytes near_tie [digit_0]) = 0.5%float)
  /\ (class_counts ten_nine_one = [10; 9; 1; 0; 0; 0; 0; 0; 0]
      /\ from_byte letter_j = Letter
      /\ (gini_impurity (add_bytes ten_nine_one [letter_j])
          <? gini_impurity ten_nine_one)%float = true).
Proof.
  split; [|vm_compute; repeat split].
  assert (Hadd : add_bytes near_tie [digit_0] =
                 {| class_counts := [Z.to_nat 61794579; Z.to_nat 61794577;
                                     0; 0; 0; 0; 0; 0; 0] |}).
  { rewrite add_bytes_one. change (class_index (from_byte digit_0)) with 0.
    unfold near_tie. cbn [class_counts incr_at].
    rewrite <- Z2Nat.inj_succ by lia. reflexivity. }
  assert (Hg : forall a b : Z, (0 <= a)%Z -> (0 <= b)%Z ->
     gini_impurity {| class_counts := [Z.to_nat a; Z.to_nat b; 0; 0; 0; 0; 0; 0; 0] |}
     = (let total := PrimFloat.of_uint63 (Uint63.of_Z (a + b)) in
        let pa := (PrimFloat.of_uint63 (Uint63.of_Z a) / total)%float in
        let pb := (PrimFloat.of_uint63 (Uint63.of_Z b) / total)%float in
        let pz := (usize_as_f64 0 / total)%float in
        1 - (((((((((0 + pa * pa) + pb * pb) + pz * pz) + pz * pz) + pz * pz)
                + pz * pz) + pz * pz) + pz * pz) + pz * pz))%float).
  { intros a b Ha Hb. unfold gini_impurity.
    cbn [class_counts sum_usize fold_left]. rewrite !Nat.add_0_r.
    rewrite <- Z2Nat.inj_add by assumption.
    rewrite !usize_as_f64_Z by lia. reflexivity. }
  split; [reflexivity|]. split.
  - change (class_index (from_byte digit_0)) with 0. unfold near_tie.
    cbn [class_counts nth].
    repeat apply Forall_cons; try apply Forall_nil; lia.
  - rewrite Hadd. unfold near_tie.
    rewrite !Hg by lia. split; vm_compute; reflexivity.
Qed.

(** C7 (amended): in exact arithmetic, that is for the value of the
    expression of [gini_impurity] over the rationals, one more byte of a
    class that already has the largest count of a non-empty column does
    not raise its impurity; one more byte of a minority class can lower
    it, as the column 10/9/1 shows both in exact arithmetic and in
    [f64]. *)
Theorem gini_impurity_add_byte :
  (forall (h : ColumnComplexity) (b : Byte.byte),
     List.length (class_counts h) = 9 ->
     0 < sum_usize (class_counts h) ->
     (forall x, In x (class_counts h) ->
                x <= nth (class_index (from_byte b)) (class_counts h) 0) ->
     (gini_impurity_exact (add_bytes h [b]) <= gini_impurity_exact h)%Q)
  /\ nth (class_index (from_byte letter_j)) (class_counts ten_nine_one) 0 = 9
  /\ (gini_impurity_exact (add_bytes ten_nine_one [letter_j])
      < gini_impurity_exact ten_nine_one)%Q
  /\ (gini_impurity (add_bytes ten_nine_one [letter_j])
      <? gini_impurity ten_nine_one)%float = true.
Proof.
  split; [exact gini_exact_dominant_add|].
  split; [reflexivity|]. split; [|vm_compute; reflexivity].
  unfold Qlt. vm_compute. reflexivity.
Qed.

Lemma gini_impurity_add_byte_witness :
  (gini_impurity_exact (add_bytes ten_nine_one ["1"%byte])
   <= gini_impurity_exact ten_nine_one)%Q.
Proof.
  apply (proj1 gini_impurity_add_byte).
  - reflexivity.
  - vm_compute. lia.
  - intros x Hx. vm_compute in Hx. vm_compute.
    repeat (destruct Hx as [Hx|Hx]; [subst; lia|]). destruct Hx.
Defined.

End ColumnClaims.

(** * Properties of [Solution::new] and [Solution::default_heuristics] *)
Module SolutionFacts.
Import Medium.

Lemma byte_eqb_iff (a b : Byte.byte) : Byte.eqb a b = true <-> a = b.
Proof. split; [apply Byte.byte_dec_bl | apply Byte.byte_dec_lb]. Qed.

Lemma byte_eqb_refl (a : Byte.byte) : Byte.eqb a a = true.
Proof. apply Byte.byte_dec_lb. reflexivity. Qed.

(** ** Bit masks *)

Lemma length_replace_at : forall (m : Mask) i b,
  List.length (replace_at i b m) = List.length m.
Proof. induction m; intros [|i] b; simpl; auto. Qed.

Lemma nth_replace_at : forall (m : Mask) i b k,
  nth_error (replace_at i b m) k =
  if Nat.eqb k i then (if k <? List.length m then Some b else None)
  else nth_error m k.
Proof.
  induction m as [|x m IH]; intros i b k.
  - simpl. destruct i, k; simpl; try reflexivity; destruct (Nat.eqb k i); reflexivity.
  - destruct i as [|i], k as [|k]; simpl; auto.
Qed.

(** Clearing a bit keeps every cleared bit cleared. *)
Lemma mask_set_false (m m' : Mask) i :
  mask_set m i false = Some m' ->
  List.length m' = List.length m /\ nth_error m' i = Some false /\
  (forall k, nth_error m k = Some false -> nth_error m' k = Some false).
Proof.
  unfold mask_set. destruct (i <? List.length m) eqn:Hi; [|discriminate].
  intro E. inversion E; subst m'. split; [apply length_replace_at|].
  split.
  - rewrite nth_replace_at, Nat.eqb_refl, Hi. reflexivity.
  - intros k Hk. rewrite nth_replace_at.
    destruct (Nat.eqb k i) eqn:Eki; [|exact Hk].
    apply Nat.eqb_eq in Eki. subst k. rewrite Hi. reflexivity.
Qed.

Lemma clear_before_spec (m m' : Mask) n :
  clear_before m n = Some m' ->
  List.length m' = List.length m /\
  (forall k, k < n -> nth_error m' k = Some false) /\
  (forall k, n <= k -> nth_error m' k = nth_error m k).
Proof.
  unfold clear_before. destruct (n <=? List.length m) eqn:Hn; [|discriminate].
  apply Nat.leb_le in Hn. intro E. inversion E; subst m'. clear E.
  split; [rewrite length_app, repeat_length, length_skipn; lia|]. split.
  - intros k Hk. rewrite nth_error_app1 by (rewrite repeat_length; lia).
    apply nth_error_repeat. exact Hk.
  - intros k Hk. rewrite nth_error_app2 by (rewrite repeat_length; lia).
    rewrite nth_error_skipn, repeat_length. f_equal. lia.
Qed.

Lemma clear_from_spec (m m' : Mask) n :
  clear_from m n = Some m' ->
  List.length m' = List.length m /\
  (forall k, k < n -> nth_error m' k = nth_error m k) /\
  (forall k, n <= k -> k < List.length m -> nth_error m' k = Some false).
Proof.
  unfold clear_from. destruct (n <=? List.length m) eqn:Hn; [|discriminate].
  apply Nat.leb_le in Hn. intro E. inversion E; subst m'. clear E.
  split; [rewrite length_app, repeat_length, length_firstn; lia|]. split.
  - intros k Hk. rewrite nth_error_app1 by (rewrite length_firstn; lia).
    rewrite nth_error_firstn. rewrite (proj2 (Nat.ltb_lt k n) Hk). reflexivity.
  - intros k Hk Hk'. rewrite nth_error_app2 by (rewrite length_firstn; lia).
    apply nth_error_repeat. rewrite length_firstn. lia.
Qed.

Lemma first_one_from_shift : forall (m : Mask) i,
  first_one_from (S i) m = option_map S (first_one_from i m).
Proof.
  induction m as [|b m IH]; intros i; simpl; [reflexivity|].
  destruct b; [reflexivity|]. apply IH.
Qed.

Lemma first_one_cons (b : bool) (m : Mask) :
  first_one (b :: m) = if b then Some 0 else option_map S (first_one m).
Proof. unfold first_one. simpl. destruct b; [reflexivity|]. apply first_one_from_shift. Qed.

Lemma last_one_from_shift : forall (m : Mask) i,
  last_one_from (S i) m = option_map S (last_one_from i m).
Proof.
  induction m as [|b m IH]; intros i; simpl; [reflexivity|].
  rewrite (IH (S i)). destruct (last_one_from (S i) m); simpl; [reflexivity|].
  destruct b; reflexivity.
Qed.

Lemma first_one_true : forall (m : Mask) j,
  first_one m = Some j -> nth_error m j = Some true.
Proof.
  induction m as [|b m IH]; intros j H; [discriminate|].
  rewrite first_one_cons in H. destruct b.
  - inversion H; reflexivity.
  - destruct (first_one m) as [j'|] eqn:E; simpl in H; inversion H; subst.
    simpl. apply IH; reflexivity.
Qed.

Lemma first_one_before : forall (m : Mask) j i,
  first_one m = Some j -> i < j -> nth_error m i = Some false.
Proof.
  induction m as [|b m IH]; intros j i H Hi; [discriminate|].
  rewrite first_one_cons in H. destruct b.
  - inversion H; subst; lia.
  - destruct (first_one m) as [j'|] eqn:E; simpl in H; inversion H; subst.
    destruct i as [|i]; [reflexivity|]. simpl. apply (IH j'); [reflexivity|lia].
Qed.

Lemma first_one_exists : forall (m : Mask) i,
  nth_error m i = Some true -> exists j, first_one m = Some j /\ j <= i.
Proof.
  induction m as [|b m IH]; intros i H; [destruct i; discriminate|].
  rewrite first_one_cons. destruct b; [exists 0; split; [reflexivity|lia]|].
  destruct i as [|i]; [discriminate|]. simpl in H.
  destruct (IH i H) as [j [E Hj]]. rewrite E. exists (S j). split; [reflexivity|lia].
Qed.

(** ** The scan of [Solution::new] *)

(** The offsets [i + k] of [bytes] whose byte satisfies [f]. *)
Fixpoint positions (f : nat -> Byte.byte -> bool) (i : nat)
    (bytes : list Byte.byte) : list nat :=
  match bytes with
  | [] => []
  | b :: bytes' =>
      if f i b then i :: positions f (S i) bytes' else positions f (S i) bytes'
  end.

Definition records_delimiter (delimiter : Byte.byte) (_ : nat) (b : Byte.byte)
  : bool :=
  Byte.eqb b byte_LF || (negb (Byte.eqb b byte_quote) && Byte.eqb b delimiter).

Definition records_quote (raw : list Byte.byte) (delimiter : Byte.byte)
    (i : nat) (b : Byte.byte) : bool :=
  negb (Byte.eqb b byte_LF) && Byte.eqb b byte_quote
  && quote_recorded raw delimiter i.

Lemma scan_positions (raw : list Byte.byte) (d : Byte.byte) :
  forall bytes i dl ql,
    scan raw d i bytes dl ql =
    (dl ++ positions (records_delimiter d) i bytes,
     ql ++ positions (records_quote raw d) i bytes).
Proof.
  induction bytes as [|b bytes IH]; intros i dl ql; simpl.
  - rewrite !app_nil_r. reflexivity.
  - unfold records_delimiter at 1, records_quote at 1.
    destruct (Byte.eqb b byte_LF) eqn:ELF; simpl.
    + rewrite IH, <- app_assoc. reflexivity.
    + destruct (Byte.eqb b byte_quote) eqn:EQ; simpl.
      * destruct (quote_recorded raw d i); rewrite IH; [|reflexivity].
        rewrite <- app_assoc. reflexivity.
      * destruct (Byte.eqb b d); rewrite IH; [|reflexivity].
        rewrite <- app_assoc. reflexivity.
Qed.

Lemma in_positions (f : nat -> Byte.byte -> bool) : forall bytes i j,
  In j (positions f i bytes) <->
  exists k b, j = i + k /\ nth_error bytes k = Some b /\ f j b = true.
Proof.
  induction bytes as [|b bytes IH]; intros i j; simpl.
  - split; [intros []|]. intros [k [b [_ [H _]]]]. destruct k; discriminate.
  - destruct (f i b) eqn:Ef; simpl; rewrite IH; split.
    + intros [E|[k [b' [E [H1 H2]]]]].
      * subst j. exists 0, b. rewrite Nat.add_0_r. auto.
      * exists (S k), b'. split; [lia|auto].
    + intros [k [b' [E [H1 H2]]]]. destruct k as [|k].
      * left. inversion H1; subst. lia.
      * right. exists k, b'. split; [lia|auto].
    + intros [k [b' [E [H1 H2]]]]. exists (S k), b'. split; [lia|auto].
    + intros [k [b' [E [H1 H2]]]]. destruct k as [|k].
      * inversion H1; subst. rewrite Nat.add_0_r in H2. congruence.
      * exists k, b'. split; [lia|auto].
Qed.

Lemma positions_sorted (f : nat -> Byte.byte -> bool) : forall bytes i,
  StronglySorted lt (positions f i bytes).
Proof.
  induction bytes as [|b bytes IH]; intros i; simpl; [constructor|].
  destruct (f i b); [|apply IH].
  constructor; [apply IH|].
  apply Forall_forall. intros j Hj. apply in_positions in Hj.
  destruct Hj as [k [_ [E _]]]. lia.
Qed.

Lemma records_delimiter_iff (d : Byte.byte) (Hd : d <> byte_quote) i b :
  records_delimiter d i b = true <-> b = byte_LF \/ b = d.
Proof.
  unfold records_delimiter. split.
  - intro H. apply orb_true_iff in H. destruct H as [H|H].
    + left. apply byte_eqb_iff. exact H.
    + apply andb_true_iff in H. destruct H as [_ H].
      right. apply byte_eqb_iff. exact H.
  - intros [E|E]; subst b; [rewrite byte_eqb_refl; reflexivity|].
    rewrite byte_eqb_refl.
    destruct (Byte.eqb d byte_quote) eqn:Eq;
      [apply byte_eqb_iff in Eq; contradiction|].
    apply orb_true_r.
Qed.

Lemma search_in (locations : list nat) (x : nat) :
  In x locations -> binary_search_is_ok locations x = true.
Proof.
  intro H. unfold binary_search_is_ok. apply existsb_exists.
  exists x. split; [exact H|apply Nat.eqb_refl].
Qed.

(** ** The per-quote rules *)

Lemma clear_if_spec (c : bool) (m m' : Mask) i :
  (if c then mask_set m i false else Some m) = Some m' ->
  List.length m' = List.length m /\
  (c = true -> nth_error m' i = Some false) /\
  (forall k, nth_error m k = Some false -> nth_error m' k = Some false).
Proof.
  destruct c; intro H.
  - destruct (mask_set_false m m' i H) as [H1 [H2 H3]]. auto.
  - inversion H; subst. split; [reflexivity|]. split; [discriminate|auto].
Qed.

Lemma quote_rules_spec (dl : list nat) (fl : nat) : forall qs n cs ce cs' ce',
  quote_rules dl fl n qs cs ce = Some (cs', ce') ->
  List.length cs' = List.length cs /\ List.length ce' = List.length ce /\
  (forall k, nth_error cs k = Some false -> nth_error cs' k = Some false) /\
  (forall k, nth_error ce k = Some false -> nth_error ce' k = Some false) /\
  (forall k q, nth_error qs k = Some q ->
     (q =? 0) || binary_search_is_ok dl (q - 1) = true ->
     nth_error cs' (n + k) = Some false) /\
  (forall k q, nth_error qs k = Some q ->
     (q =? fl - 1) || binary_search_is_ok dl (q + 1) = true ->
     nth_error ce' (n + k) = Some false).
Proof.
  induction qs as [|q qs IH]; intros n cs ce cs' ce' H; simpl in H.
  - inversion H; subst. repeat split; auto; intros [|k] q' Hk; discriminate.
  - match type of H with
    | match ?a with Some _ => _ | None => _ end = _ =>
        destruct a as [cs1|] eqn:E1; [|discriminate]
    end.
    match type of H with
    | match ?a with Some _ => _ | None => _ end = _ =>
        destruct a as [ce1|] eqn:E2; [|discriminate]
    end.
    apply clear_if_spec in E1. destruct E1 as [L1 [P1 K1]].
    apply clear_if_spec in E2. destruct E2 as [L2 [P2 K2]].
    destruct (IH (S n) cs1 ce1 cs' ce' H) as [L3 [L4 [K3 [K4 [P3 P4]]]]].
    split; [congruence|]. split; [congruence|].
    split; [auto|]. split; [auto|]. split.
    + intros [|k] q' Hk Hp; simpl in Hk.
      * inversion Hk; subst q'. rewrite Nat.add_0_r. apply K3, P1, Hp.
      * rewrite Nat.add_succ_r. apply (P3 k q' Hk Hp).
    + intros [|k] q' Hk Hp; simpl in Hk.
      * inversion Hk; subst q'. rewrite Nat.add_0_r. apply K4, P2, Hp.
      * rewrite Nat.add_succ_r. apply (P4 k q' Hk Hp).
Qed.

Lemma default_heuristics_spec (s s' : Solution) :
  default_heuristics s = Some s' ->
  exists cs1 ce1,
    quote_rules (delimiter_locations s) (file_length s) 0 (quote_locations s)
      (quote_can_start s) (quote_can_end s) = Some (cs1, ce1)
    /\ clear_before ce1 (unwrap_or (first_one cs1) 0) = Some (quote_can_end s')
    /\ clear_from cs1 (unwrap_or (last_one (quote_can_end s')) 0)
       = Some (quote_can_start s')
    /\ delimiter_locations s' = delimiter_locations s
    /\ quote_locations s' = quote_locations s
    /\ file_length s' = file_length s.
Proof.
  unfold default_heuristics. intro H.
  destruct (quote_rules _ _ _ _ _ _) as [[cs1 ce1]|] eqn:E; [|discriminate].
  destruct (clear_before ce1 _) as [ce2|] eqn:E2; [|discriminate].
  destruct (clear_from cs1 _) as [cs2|] eqn:E3; [|discriminate].
  inversion H; subst s'. clear H. exists cs1, ce1. simpl. auto 7.
Qed.

Lemma new_spec (raw : list Byte.byte) (d : Byte.byte) (qv : Mask) (s : Solution) :
  new raw d qv = Some s ->
  default_heuristics
    {| delimiter := d; column_count := None; column_complexities := [];
       file_length := List.length raw;
       delimiter_locations := positions (records_delimiter d) 0 raw;
       quote_locations := positions (records_quote raw d) 0 raw;
       quote_can_start := qv; quote_can_end := qv |} = Some s.
Proof. unfold new. rewrite scan_positions. simpl. auto. Qed.

(** Offsets of the LF bytes and delimiter bytes are the recorded
    delimiter locations. *)
Lemma in_delimiter_positions (raw : list Byte.byte) (d : Byte.byte)
    (Hd : d <> byte_quote) (i : nat) :
  In i (positions (records_delimiter d) 0 raw) <->
  nth_error raw i = Some byte_LF \/ nth_error raw i = Some d.
Proof.
  rewrite in_positions. split.
  - intros [k [b [E [Hb Hr]]]]. simpl in E. subst k.
    apply records_delimiter_iff in Hr; [|exact Hd].
    destruct Hr; subst b; auto.
  - intros H. destruct (nth_error raw i) as [b|] eqn:Eb;
      [|destruct H; discriminate].
    exists i, b. split; [reflexivity|]. split; [exact Eb|].
    apply records_delimiter_iff; [exact Hd|].
    destruct H as [H|H]; inversion H; auto.
Qed.

End SolutionFacts.

(** * Claims about [Solution::new] and [Solution::default_heuristics] *)
Module SolutionClaims.
Import Medium SolutionFacts.

Definition comma_byte : Byte.byte := ","%byte.

(** [a], CR, [b]. *)
Definition raw_cr : list Byte.byte := ["a"%byte; byte_CR; "b"%byte].

(** C4 (counterexample): the CR byte of [a\rb], of class [Newline], is
    not recorded. *)
Lemma solution_new_skips_cr :
  exists s, new raw_cr comma_byte [] = Some s
    /\ nth_error raw_cr 1 = Some byte_CR /\ from_byte byte_CR = Newline
    /\ ~ In 1 (delimiter_locations s) /\ ~ In 1 (quote_locations s).
Proof.
  eexists. split; [vm_compute; reflexivity|].
  vm_compute. repeat split; intros [].
Qed.

(** C4 (amended): for a delimiter other than the quote byte,
    [Solution::new] records as delimiter locations exactly the offsets of
    LF bytes and delimiter bytes (CR bytes are not recorded); it records
    only quote-byte offsets as quote locations, among them every quote at
    the first or last offset or right after a delimiter or LF byte; both
    sequences are strictly ascending. *)
Theorem solution_new_recorded_offsets :
  forall (raw : list Byte.byte) (d : Byte.byte) (quote_valid : Mask)
         (s : Solution),
    d <> byte_quote -> new raw d quote_valid = Some s ->
    (forall i, In i (delimiter_locations s) <->
               nth_error raw i = Some byte_LF \/ nth_error raw i = Some d)
    /\ (forall i, In i (quote_locations s) -> nth_error raw i = Some byte_quote)
    /\ (forall i, nth_error raw i = Some byte_quote ->
          i = 0 \/ i = List.length raw - 1
          \/ (0 < i /\ nth_error raw (i - 1) = Some d)
          \/ (0 < i /\ nth_error raw (i - 1) = Some byte_LF) ->
          In i (quote_locations s))
    /\ StronglySorted lt (delimiter_locations s)
    /\ StronglySorted lt (quote_locations s).
Proof.
  intros raw d qv s Hd H. apply new_spec in H. apply default_heuristics_spec in H.
  destruct H as [cs1 [ce1 [_ [_ [_ [Hdl [Hql _]]]]]]].
  simpl in Hdl, Hql. rewrite Hdl, Hql.
  split; [intro i; apply in_delimiter_positions; exact Hd|].
  split; [|split; [|split; apply positions_sorted]].
  - intros i Hi. apply in_positions in Hi.
    destruct Hi as [k [b [E [Hb Hr]]]]. simpl in E. subst k.
    unfold records_quote in Hr. apply andb_true_iff in Hr. destruct Hr as [Hr _].
    apply andb_true_iff in Hr. destruct Hr as [_ Hr].
    apply byte_eqb_iff in Hr. subst b. exact Hb.
  - intros i Hb Hc. apply in_positions.
    exists i, byte_quote. split; [reflexivity|]. split; [exact Hb|].
    unfold records_quote. rewrite byte_eqb_refl. simpl.
    unfold quote_recorded.
    destruct Hc as [E|[E|[[_ E]|[_ E]]]].
    + subst i. reflexivity.
    + rewrite (proj2 (Nat.eqb_eq _ _) E). apply orb_true_r.
    + rewrite (nth_error_nth raw (i - 1) x00 E), byte_eqb_refl.
      rewrite orb_true_r. reflexivity.
    + rewrite (nth_error_nth raw (i - 1) x00 E). rewrite orb_true_r. reflexivity.
Qed.

Definition raw_quoted : list Byte.byte :=
  ["a"%byte; comma_byte; byte_quote; "b"%byte; byte_quote].

Lemma solution_new_recorded_offsets_witness :
  exists s, comma_byte <> byte_quote
    /\ new raw_quoted comma_byte [true; true] = Some s
    /\ ((forall i, In i (delimiter_locations s) <->
                   nth_error raw_quoted i = Some byte_LF
                   \/ nth_error raw_quoted i = Some comma_byte)
        /\ (forall i, In i (quote_locations s) ->
                      nth_error raw_quoted i = Some byte_quote)
        /\ (forall i, nth_error raw_quoted i = Some byte_quote ->
              i = 0 \/ i = List.length raw_quoted - 1
              \/ (0 < i /\ nth_error raw_quoted (i - 1) = Some comma_byte)
              \/ (0 < i /\ nth_error raw_quoted (i - 1) = Some byte_LF) ->
              In i (quote_locations s))
        /\ StronglySorted lt (delimiter_locations s)
        /\ StronglySorted lt (quote_locations s)).
Proof.
  eexists. split; [discriminate|]. split; [vm_compute; reflexivity|].
  apply (solution_new_recorded_offsets raw_quoted comma_byte [true; true]);
    [discriminate|vm_compute; reflexivity].
Defined.

(** [a], quote, comma, [b]: a quote followed by a delimiter. *)
Definition raw_quote_before_comma : list Byte.byte :=
  ["a"%byte; byte_quote; comma_byte; "b"%byte].

(** C4 (code bug): the quote at offset 1 of [raw_quote_before_comma] is
    followed by the
    delimiter, yet [Solution::new] does not record it as a quote
    candidate: only the previous byte and the buffer ends are tested. *)
Theorem solution_new_skips_quote_before_delimiter :
  exists s, new raw_quote_before_comma comma_byte [] = Some s
    /\ nth_error raw_quote_before_comma 1 = Some byte_quote
    /\ nth_error raw_quote_before_comma 2 = Some comma_byte
    /\ 1 <> 0 /\ 1 <> List.length raw_quote_before_comma - 1
    /\ ~ In 1 (quote_locations s).
Proof.
  eexists. split; [vm_compute; reflexivity|].
  vm_compute. repeat split; try discriminate. intros [].
Qed.

(** A quote, CR, LF. *)
Definition raw_quote_crlf : list Byte.byte := [byte_quote; byte_CR; byte_LF].

(** C5 (counterexample): in quote, CR, LF the quote is followed by a byte
    of class [Newline], yet its can-close bit stays set. *)
Lemma default_heuristics_keeps_close_before_cr :
  exists s, new raw_quote_crlf comma_byte [true] = Some s
    /\ nth_error (quote_locations s) 0 = Some 0
    /\ from_byte (nth 1 raw_quote_crlf x00) = Newline
    /\ nth_error (quote_can_end s) 0 = Some true.
Proof.
  eexists. split; [vm_compute; reflexivity|]. vm_compute. repeat split.
Qed.

(** C5 (amended): for a delimiter other than the quote byte, after
    [Solution::new] (which runs [default_heuristics]) the k-th quote q
    cannot close when it is at the last offset or followed by a delimiter
    or LF byte, and cannot open when it is at offset 0 or preceded by a
    delimiter or LF byte (CR is not a separator here); no quote before
    the first quote that can open can close, and no quote after the last
    quote that can close can open. *)
Theorem default_heuristics_constraints :
  forall (raw : list Byte.byte) (d : Byte.byte) (quote_valid : Mask)
         (s : Solution),
    d <> byte_quote -> new raw d quote_valid = Some s ->
    (forall k q, nth_error (quote_locations s) k = Some q ->
       q = 0 \/ (0 < q /\ nth_error raw (q - 1) = Some d)
       \/ (0 < q /\ nth_error raw (q - 1) = Some byte_LF) ->
       nth_error (quote_can_start s) k = Some false)
    /\ (forall k q, nth_error (quote_locations s) k = Some q ->
       q = List.length raw - 1 \/ nth_error raw (q + 1) = Some d
       \/ nth_error raw (q + 1) = Some byte_LF ->
       nth_error (quote_can_end s) k = Some false)
    /\ (forall j k, first_one (quote_can_start s) = Some j -> k < j ->
       nth_error (quote_can_end s) k = Some false)
    /\ (forall l k, last_one (quote_can_end s) = Some l -> l < k ->
       k < List.length (quote_can_start s) ->
       nth_error (quote_can_start s) k = Some false).
Proof.
  intros raw d qv s Hd H. apply new_spec in H. apply default_heuristics_spec in H.
  destruct H as [cs1 [ce1 [Hqr [Hce [Hcs [_ [Hql _]]]]]]].
  simpl in Hqr, Hql. rewrite Hql.
  destruct (quote_rules_spec _ _ _ _ _ _ _ _ Hqr) as [_ [_ [_ [_ [P1 P2]]]]].
  destruct (clear_before_spec _ _ _ Hce) as [_ [B1 B2]].
  destruct (clear_from_spec _ _ _ Hcs) as [Lcs [F1 F2]].
  set (l := unwrap_or (last_one (quote_can_end s)) 0) in *.
  set (f := unwrap_or (first_one cs1) 0) in *.
  split; [|split; [|split]].
  - intros k q Hk Hc.
    assert (Hf : nth_error cs1 k = Some false).
    { apply (P1 k q Hk). destruct Hc as [E|[[_ E]|[_ E]]].
      - subst q. reflexivity.
      - apply orb_true_iff. right. apply search_in.
        apply in_delimiter_positions; [exact Hd|]. right. exact E.
      - apply orb_true_iff. right. apply search_in.
        apply in_delimiter_positions; [exact Hd|]. left. exact E. }
    destruct (Nat.lt_ge_cases k l) as [Hkl|Hkl].
    + rewrite F1 by exact Hkl. exact Hf.
    + apply F2; [exact Hkl|]. apply nth_error_Some. rewrite Hf. discriminate.
  - intros k q Hk Hc.
    assert (Hf : nth_error ce1 k = Some false).
    { apply (P2 k q Hk). destruct Hc as [E|[E|E]].
      - rewrite (proj2 (Nat.eqb_eq _ _) E). reflexivity.
      - apply orb_true_iff. right. apply search_in.
        apply in_delimiter_positions; [exact Hd|]. right. exact E.
      - apply orb_true_iff. right. apply search_in.
        apply in_delimiter_positions; [exact Hd|]. left. exact E. }
    destruct (Nat.lt_ge_cases k f) as [Hkf|Hkf].
    + apply B1. exact Hkf.
    + rewrite B2 by exact Hkf. exact Hf.
  - intros j k Hj Hk.
    pose proof (first_one_true _ _ Hj) as Ht.
    assert (Hjlen : j < List.length cs1).
    { rewrite <- Lcs. apply nth_error_Some. rewrite Ht. discriminate. }
    destruct (Nat.lt_ge_cases j l) as [Hjl|Hjl].
    + assert (Ht1 : nth_error cs1 j = Some true) by (rewrite <- F1 by exact Hjl; exact Ht).
      destruct (first_one_exists _ _ Ht1) as [f0 [Ef0 Hf0]].
      assert (Hf0j : f0 = j).
      { destruct (Nat.lt_ge_cases f0 j) as [Hlt|Hge]; [|lia].
        pose proof (first_one_before _ _ _ Hj Hlt) as Hfalse.
        rewrite F1 in Hfalse by lia.
        rewrite (first_one_true _ _ Ef0) in Hfalse. discriminate. }
      apply B1. unfold f. rewrite Ef0. simpl. lia.
    + rewrite (F2 j Hjl Hjlen) in Ht. discriminate.
  - intros l0 k Hl Hlk Hklen.
    apply F2; [unfold l; rewrite Hl; simpl; lia|]. rewrite <- Lcs. exact Hklen.
Qed.

Lemma default_heuristics_constraints_witness :
  exists s, comma_byte <> byte_quote
    /\ new raw_quoted comma_byte [true; true] = Some s
    /\ ((forall k q, nth_error (quote_locations s) k = Some q ->
           q = 0 \/ (0 < q /\ nth_error raw_quoted (q - 1) = Some comma_byte)
           \/ (0 < q /\ nth_error raw_quoted (q - 1) = Some byte_LF) ->
           nth_error (quote_can_start s) k = Some false)
        /\ (forall k q, nth_error (quote_locations s) k = Some q ->
           q = List.length raw_quoted - 1
           \/ nth_error raw_quoted (q + 1) = Some comma_byte
           \/ nth_error raw_quoted (q + 1) = Some byte_LF ->
           nth_error (quote_can_end s) k = Some false)
        /\ (forall j k, first_one (quote_can_start s) = Some j -> k < j ->
           nth_error (quote_can_end s) k = Some false)
        /\ (forall l k, last_one (quote_can_end s) = Some l -> l < k ->
           k < List.length (quote_can_start s) ->
           nth_error (quote_can_start s) k = Some false)).
Proof.
  eexists. split; [discriminate|]. split; [vm_compute; reflexivity|].
  apply (default_heuristics_constraints raw_quoted comma_byte [true; true]);
    [discriminate|vm_compute; reflexivity].
Defined.

End SolutionClaims.

(** * More properties of the line parsers of [easy.rs] *)
Module EasyMore.
Import Easy EasyFacts.

Lemma join_cons_ne (sep x : rust_string) (xs : list rust_string) :
  xs <> [] -> join sep (x :: xs) = x ++ sep ++ join sep xs.
Proof. destruct xs; [congruence|reflexivity]. Qed.

Lemma join_app (sep : rust_string) : forall xs ys : list rust_string,
  xs <> [] -> ys <> [] -> join sep (xs ++ ys) = join sep xs ++ sep ++ join sep ys.
Proof.
  induction xs as [|x xs IH]; intros ys Hx Hy; [congruence|].
  destruct xs as [|x' xs].
  - simpl. apply join_cons_ne. exact Hy.
  - rewrite <- app_comm_cons. rewrite join_cons_ne by (destruct xs; discriminate).
    rewrite IH by (discriminate || exact Hy).
    rewrite (join_cons_ne sep x (x' :: xs)) by discriminate.
    rewrite !app_assoc. reflexivity.
Qed.

(** Joining a merged group again gives the text of the group's fields. *)
Lemma join_merge (sep : rust_string) (a b c : list rust_string) :
  b <> [] -> join sep (a ++ join sep b :: c) = join sep (a ++ b ++ c).
Proof.
  intro Hb.
  assert (Hmid : join sep (join sep b :: c) = join sep (b ++ c)).
  { destruct c as [|y c].
    - rewrite app_nil_r. reflexivity.
    - rewrite join_cons_ne by discriminate. rewrite join_app by (exact Hb || discriminate).
      reflexivity. }
  destruct a as [|x a]; [exact Hmid|].
  rewrite (join_app sep (x :: a) (join sep b :: c)) by discriminate.
  rewrite (join_app sep (x :: a) (b ++ c)).
  - rewrite Hmid. reflexivity.
  - discriminate.
  - destruct b; [congruence|discriminate].
Qed.

Lemma join_split_on (d : char) (s : list char) : join [d] (split_on d s) = s.
Proof.
  induction s as [|c s IH]; [reflexivity|]. simpl.
  pose proof (split_on_not_nil d s) as Hne.
  destruct (N.eqb c d) eqn:E.
  - apply N.eqb_eq in E. subst c. rewrite join_cons_ne by exact Hne.
    rewrite IH. reflexivity.
  - destruct (split_on d s) as [|f fs]; [congruence|].
    destruct fs as [|g fs]; simpl in *; rewrite <- IH; reflexivity.
Qed.

Lemma length_split_on (d : char) (s : list char) :
  List.length (split_on d s) = S (count_occ N.eq_dec s d).
Proof.
  induction s as [|c s IH]; [reflexivity|]. simpl.
  pose proof (split_on_not_nil d s) as Hne.
  destruct (N.eqb c d) eqn:E; destruct (N.eq_dec c d) as [Ecd|Ecd].
  - simpl. rewrite IH. reflexivity.
  - apply N.eqb_eq in E. contradiction.
  - apply N.eqb_neq in E. contradiction.
  - destruct (split_on d s) as [|f fs]; [congruence|]. exact IH.
Qed.

(** The merge of [resolve_row] keeps the text of the row. *)
Lemma resolve_row_join (d : char) (idx e line : nat) (r row : list rust_string) :
  idx < e -> resolve_row d idx e line (Ok r) = Ok row ->
  join [d] row = join [d] r.
Proof.
  intros Hidx H. unfold resolve_row in H.
  destruct (List.length r <? e) eqn:E1; [discriminate|].
  destruct (e <? List.length r) eqn:E2; [|inversion H; reflexivity].
  apply Nat.ltb_lt in E2. inversion H; subst row. clear H.
  set (k := List.length r - e + 1).
  rewrite join_merge.
  - rewrite firstn_skipn, firstn_skipn. reflexivity.
  - intro Hn. apply (f_equal (@List.length _)) in Hn.
    rewrite length_firstn, length_skipn in Hn. simpl in Hn. lia.
Qed.

(** A quote-all writer: every field quoted with [quote_field], fields
    separated by the delimiter, each row ended by LF. *)
Definition write_row (d q : char) (row : list rust_string) : rust_string :=
  join [d] (map (quote_field q) row) ++ [LF].

Definition write_rows (d q : char) (rows : list (list rust_string))
  : list char :=
  List.concat (map (write_row d q) rows).

Lemma strip_cr_last (l : list char) (c : char) : c <> CR -> strip_cr (l ++ [c]) = l ++ [c].
Proof.
  intro Hc. unfold strip_cr. rewrite rev_app_distr. simpl.
  rewrite (proj2 (N.eqb_neq c CR) Hc). reflexivity.
Qed.

Lemma join_quoted_last (d q : char) : forall row : list rust_string,
  row <> [] -> exists l, join [d] (map (quote_field q) row) = l ++ [q].
Proof.
  induction row as [|x row IH]; intro Hne; [congruence|].
  destruct row as [|y row].
  - exists (q :: escape q x). reflexivity.
  - destruct (IH ltac:(discriminate)) as [l E].
    exists (quote_field q x ++ [d] ++ l).
    change (join [d] (map (quote_field q) (x :: y :: row)))
      with (quote_field q x ++ [d] ++ join [d] (map (quote_field q) (y :: row))).
    rewrite E. rewrite !app_assoc. reflexivity.
Qed.

Lemma no_lf_quoted (d q : char) (row : list rust_string) :
  d <> LF -> q <> LF -> Forall (fun cell => ~ In LF cell) row ->
  ~ In LF (join [d] (map (quote_field q) row)).
Proof.
  intros Hd Hq Hrow H. apply in_join in H.
  destruct H as [[H|[]]|[y [Hy Hx]]]; [congruence|].
  apply in_map_iff in Hy. destruct Hy as [cell [E Hc]]. subst y.
  rewrite Forall_forall in Hrow.
  unfold quote_field in Hx. destruct Hx as [Hx|Hx]; [congruence|].
  apply in_app_or in Hx. destruct Hx as [Hx|[Hx|[]]]; [|congruence].
  destruct (in_escape q LF cell Hx) as [E|E]; [congruence|].
  exact (Hrow cell Hc E).
Qed.

(** X1: [fast_stream_valid_csv] on a line without quote chars: the row has
    one field more than the line has delimiters, and joining it with the
    delimiter gives the line back. *)
Theorem fast_stream_valid_csv_unquoted_line :
  forall (reader : Reader) (delimiter quote : char) (k : nat)
         (line : rust_string),
    nth_error reader k = Some (Ok line) -> ~ In quote line ->
    exists row,
      nth_error (fast_stream_valid_csv reader delimiter quote) k = Some (Ok row)
      /\ join [delimiter] row = line
      /\ List.length row = S (count_occ N.eq_dec line delimiter).
Proof.
  intros reader d q k line Hk Hq.
  exists (parse_line d q line). rewrite nth_error_valid, Hk.
  split; [reflexivity|]. rewrite (parse_line_no_quote d q line Hq).
  split; [apply join_split_on|apply length_split_on].
Qed.

Definition line_ab : rust_string := chars_of "a,b,,c".
Definition reader_ab : Reader := [Ok line_ab].

Lemma fast_stream_valid_csv_unquoted_line_witness :
  nth_error reader_ab 0 = Some (Ok line_ab) /\ ~ In 34%N line_ab /\
  exists row,
    nth_error (fast_stream_valid_csv reader_ab 44%N 34%N) 0 = Some (Ok row)
    /\ join [44%N] row = line_ab
    /\ List.length row = S (count_occ N.eq_dec line_ab 44%N).
Proof.
  split; [reflexivity|]. split; [vm_compute; intuition discriminate|].
  apply fast_stream_valid_csv_unquoted_line; [reflexivity|].
  vm_compute. intuition discriminate.
Defined.

(** X2: Writing rows with every field quoted (quotes doubled inside), the
    fields separated by the delimiter and each row ended by LF, and reading
    the text back with [fast_stream_valid_csv] over [BufRead::lines] gives
    the rows back, when no field holds an LF, no row is empty, and the
    delimiter, the quote, LF (and CR for the quote) are distinct. *)
Theorem fast_stream_valid_csv_reads_quoted_rows :
  forall (delimiter quote : char) (rows : list (list rust_string)),
    delimiter <> quote -> delimiter <> LF -> quote <> LF -> quote <> CR ->
    Forall (fun row => row <> [] /\ Forall (fun cell => ~ In LF cell) row) rows ->
    fast_stream_valid_csv (cursor (write_rows delimiter quote rows))
      delimiter quote = map Ok rows.
Proof.
  intros d q rows Hdq HdL HqL HqC Hrows.
  induction rows as [|row rows IH]; [reflexivity|].
  inversion Hrows as [|? ? [Hne Hcells] Hrest]; subst.
  unfold write_rows, cursor. simpl List.concat. unfold write_row.
  rewrite <- app_assoc. simpl app.
  rewrite lines_aux_line by (apply no_lf_quoted; assumption).
  rewrite app_nil_l.
  destruct (join_quoted_last d q row Hne) as [l El].
  rewrite El, strip_cr_last by exact HqC. rewrite <- El.
  simpl. f_equal.
  - unfold parse_line. rewrite (tokenize_quoted_row d q Hdq row Hne []).
    reflexivity.
  - exact (IH Hrest).
Qed.

Definition table_w : list (list rust_string) :=
  [[chars_of "a,b"; chars_of "x"]; [[34%N]; []]].

Lemma fast_stream_valid_csv_reads_quoted_rows_witness :
  fast_stream_valid_csv (cursor (write_rows 44%N 34%N table_w)) 44%N 34%N
  = map Ok table_w.
Proof.
  apply fast_stream_valid_csv_reads_quoted_rows;
    try (unfold LF, CR; discriminate).
  unfold table_w. vm_compute.
  repeat constructor; try discriminate; simpl; intuition discriminate.
Defined.

(** X3: [fast_stream_csv_with_unescaped_delimiters] with an absorbing index
    below the expected count, on a line without quote chars: joining any
    [Ok] row it yields with the delimiter gives the line back, so the
    merge neither loses nor reorders text. *)
Theorem unescaped_delimiters_keep_text :
  forall (reader : Reader) (delimiter quote : char)
         (invalid_column_index expected_column_count k : nat)
         (line : rust_string) (row : list rust_string),
    invalid_column_index < expected_column_count ->
    nth_error reader k = Some (Ok line) -> ~ In quote line ->
    nth_error (fast_stream_csv_with_unescaped_delimiters reader delimiter quote
                 invalid_column_index expected_column_count) k = Some (Ok row) ->
    join [delimiter] row = line.
Proof.
  intros reader d q idx e k line row Hidx Hk Hq H.
  rewrite nth_error_stream, nth_error_valid, Hk in H. simpl in H.
  inversion H as [H']. apply resolve_row_join in H'; [|exact Hidx].
  rewrite H', parse_line_no_quote by exact Hq. apply join_split_on.
Qed.

Definition line_long : rust_string := chars_of "4,5,6,7,8,9".
Definition reader_long : Reader := [Ok line_long].

Lemma unescaped_delimiters_keep_text_witness :
  join [44%N] (map chars_of ["4"; "5"; "6,7,8,9"]%string) = line_long.
Proof.
  apply (unescaped_delimiters_keep_text reader_long 44%N 34%N 2 3 0).
  - lia.
  - reflexivity.
  - vm_compute. intuition discriminate.
  - vm_compute. reflexivity.
Defined.

End EasyMore.

(** * More properties of [CharacterClass] and [ColumnComplexity] *)
Module ColumnMore.
Import Medium ColumnFacts.

(** The number of [bytes] of the class with index [i]. *)
Definition count_class (i : nat) (bytes : list Byte.byte) : nat :=
  List.length (filter (fun b => class_index (from_byte b) =? i) bytes).

Lemma count_class_cons (i : nat) (b : Byte.byte) (bytes : list Byte.byte) :
  count_class i (b :: bytes) =
  (if class_index (from_byte b) =? i then 1 else 0) + count_class i bytes.
Proof. unfold count_class. simpl. destruct (_ =? i); reflexivity. Qed.

Lemma count_class_app (i : nat) (xs ys : list Byte.byte) :
  count_class i (xs ++ ys) = count_class i xs + count_class i ys.
Proof. unfold count_class. rewrite filter_app, length_app. reflexivity. Qed.

Lemma count_class_total : forall bytes : list Byte.byte,
  count_class 0 bytes + count_class 1 bytes + count_class 2 bytes
  + count_class 3 bytes + count_class 4 bytes + count_class 5 bytes
  + count_class 6 bytes + count_class 7 bytes + count_class 8 bytes
  = List.length bytes.
Proof.
  induction bytes as [|b bytes IH]; [reflexivity|].
  rewrite !count_class_cons. simpl List.length.
  destruct (from_byte b); simpl; lia.
Qed.

Lemma count_class_large (i : nat) (bytes : list Byte.byte) :
  9 <= i -> count_class i bytes = 0.
Proof.
  intro Hi. induction bytes as [|b bytes IH]; [reflexivity|].
  rewrite count_class_cons, IH.
  pose proof (class_index_lt (from_byte b)).
  destruct (class_index (from_byte b) =? i) eqn:E; [apply Nat.eqb_eq in E; lia|reflexivity].
Qed.

Lemma class_of_index (i : nat) : i < 9 -> exists c, class_index c = i.
Proof.
  intro H.
  destruct i as [|[|[|[|[|[|[|[|[|i]]]]]]]]];
    [exists Digit|exists Letter|exists Punctuation|exists Whitespace|exists Quote
    |exists Comma|exists Tab|exists Newline|exists Other|lia]; reflexivity.
Qed.

Lemma length_incr_at : forall (l : list nat) i,
  List.length (incr_at i l) = List.length l.
Proof. induction l as [|x l IH]; intros [|i]; simpl; auto. Qed.

Lemma nth_incr_at : forall (l : list nat) i j, i < List.length l ->
  nth j (incr_at i l) 0 = (if j =? i then 1 else 0) + nth j l 0.
Proof.
  induction l as [|x l IH]; intros i j Hi; simpl in Hi; [lia|].
  destruct i as [|i]; destruct j as [|j]; simpl; try reflexivity.
  apply IH. lia.
Qed.

(** [add_bytes] adds to each count the number of bytes of its class. *)
Lemma add_bytes_counts : forall (bytes : list Byte.byte) (l : list nat),
  List.length l = 9 ->
  List.length (class_counts (add_bytes {| class_counts := l |} bytes)) = 9 /\
  forall j, nth j (class_counts (add_bytes {| class_counts := l |} bytes)) 0
            = nth j l 0 + count_class j bytes.
Proof.
  induction bytes as [|b bytes IH]; intros l Hl.
  - simpl. split; [exact Hl|]. intro j. unfold count_class. simpl. lia.
  - change (class_counts (add_bytes {| class_counts := l |} (b :: bytes)))
      with (class_counts (add_bytes
              {| class_counts := incr_at (class_index (from_byte b)) l |} bytes)).
    pose proof (class_index_lt (from_byte b)) as Hb.
    destruct (IH (incr_at (class_index (from_byte b)) l)) as [IH1 IH2];
      [rewrite length_incr_at; exact Hl|].
    split; [exact IH1|]. intro j. rewrite IH2, nth_incr_at by lia.
    rewrite count_class_cons.
    destruct (j =? class_index (from_byte b)) eqn:E1;
      destruct (class_index (from_byte b) =? j) eqn:E2; try lia.
    + apply Nat.eqb_eq in E1. apply Nat.eqb_neq in E2. congruence.
    + apply Nat.eqb_neq in E1. apply Nat.eqb_eq in E2. congruence.
Qed.

Lemma fold_add_bytes_counts : forall (iter : list (list Byte.byte)) (l : list nat),
  List.length l = 9 ->
  List.length (class_counts (fold_left add_bytes iter {| class_counts := l |})) = 9 /\
  forall j, nth j (class_counts (fold_left add_bytes iter {| class_counts := l |})) 0
            = nth j l 0 + count_class j (List.concat iter).
Proof.
  induction iter as [|bytes iter IH]; intros l Hl.
  - split; [exact Hl|]. intro j. simpl. unfold count_class. simpl. lia.
  - simpl. destruct (add_bytes_counts bytes l Hl) as [H1 H2].
    destruct (IH _ H1) as [H3 H4].
    destruct (add_bytes {| class_counts := l |} bytes) as [l1] eqn:E.
    simpl in H1, H2.
    split; [exact H3|]. intro j. rewrite H4, H2, count_class_app. lia.
Qed.

Lemma sum_usize_counts : forall (l : list nat), List.length l = 9 ->
  sum_usize l = fold_right (fun j acc => nth j l 0 + acc) 0 (seq 0 9).
Proof.
  intros l Hl.
  destruct l as [|a0 [|a1 [|a2 [|a3 [|a4 [|a5 [|a6 [|a7 [|a8 [|a9 l]]]]]]]]]];
    simpl in Hl; try lia. simpl. lia.
Qed.

(** [decr_at] on a positive count. *)
Lemma decr_at_some : forall (l : list nat) i, i < List.length l -> 0 < nth i l 0 ->
  exists l', decr_at i l = Some l' /\ List.length l' = List.length l /\
    forall j, nth j l' 0 = nth j l 0 - (if j =? i then 1 else 0).
Proof.
  induction l as [|x l IH]; intros i Hi Hpos; simpl in Hi; [lia|].
  destruct i as [|i].
  - destruct x as [|x]; simpl in Hpos; [lia|].
    exists (x :: l). split; [reflexivity|]. split; [reflexivity|].
    intros [|j]; simpl; [lia|]. destruct j; lia.
  - simpl in Hpos. destruct (IH i ltac:(lia) Hpos) as [l' [E [Hlen Hnth]]].
    exists (x :: l'). simpl. rewrite E.
    destruct x; (split; [reflexivity|]); (split; [simpl; rewrite Hlen; reflexivity|]);
      intros [|j]; simpl; try lia; apply Hnth.
Qed.

Lemma decr_at_zero : forall (l : list nat) i, nth i l 0 = 0 -> decr_at i l = None.
Proof.
  induction l as [|x l IH]; intros i H; [destruct i; reflexivity|].
  destruct i as [|i]; simpl in H.
  - subst x. reflexivity.
  - simpl. rewrite (IH i H). destruct x; reflexivity.
Qed.

Definition remove_step (acc : option (list nat)) (byte : Byte.byte)
  : option (list nat) :=
  let? counts := acc in decr_at (class_index (from_byte byte)) counts.

Lemma fold_remove_none : forall bytes : list Byte.byte,
  fold_left remove_step bytes None = None.
Proof. induction bytes; simpl; auto. Qed.

(** [remove_bytes] succeeds exactly when no class loses more bytes than
    it counts, and then subtracts the counts. *)
Lemma fold_remove_counts : forall (bytes : list Byte.byte) (l : list nat),
  List.length l = 9 ->
  ((forall j, count_class j bytes <= nth j l 0) ->
   exists l', fold_left remove_step bytes (Some l) = Some l'
     /\ List.length l' = 9
     /\ forall j, nth j l' 0 = nth j l 0 - count_class j bytes)
  /\ ((exists j, nth j l 0 < count_class j bytes) ->
      fold_left remove_step bytes (Some l) = None).
Proof.
  induction bytes as [|b bytes IH]; intros l Hl.
  - split.
    + intros _. exists l. split; [reflexivity|]. split; [exact Hl|].
      intro j. unfold count_class. simpl. lia.
    + intros [j Hj]. unfold count_class in Hj. simpl in Hj. lia.
  - set (i := class_index (from_byte b)).
    assert (Hi : i < List.length l) by (rewrite Hl; apply class_index_lt).
    simpl. change (decr_at (class_index (from_byte b)) l) with (decr_at i l).
    split.
    + intro Hc.
      assert (Hpos : 0 < nth i l 0).
      { specialize (Hc i). rewrite count_class_cons in Hc. unfold i in Hc at 1.
        rewrite Nat.eqb_refl in Hc. fold i in Hc. lia. }
      destruct (decr_at_some l i Hi Hpos) as [l1 [E [Hlen1 Hnth1]]].
      rewrite E.
      destruct (IH l1 ltac:(lia)) as [IHs _].
      destruct IHs as [l' [E' [Hlen' Hnth']]].
      * intro j. rewrite Hnth1. specialize (Hc j). rewrite count_class_cons in Hc.
        fold i in Hc. destruct (j =? i) eqn:E1; destruct (i =? j) eqn:E2;
          try (apply Nat.eqb_eq in E1; apply Nat.eqb_neq in E2; congruence);
          try (apply Nat.eqb_neq in E1; apply Nat.eqb_eq in E2; congruence); lia.
      * exists l'. split; [exact E'|]. split; [exact Hlen'|].
        intro j. rewrite Hnth', Hnth1, count_class_cons. fold i.
        destruct (j =? i) eqn:E1; destruct (i =? j) eqn:E2;
          try (apply Nat.eqb_eq in E1; apply Nat.eqb_neq in E2; congruence);
          try (apply Nat.eqb_neq in E1; apply Nat.eqb_eq in E2; congruence); lia.
    + intros [j Hj].
      destruct (nth i l 0) as [|n] eqn:Hn.
      * rewrite (decr_at_zero l i Hn). apply fold_remove_none.
      * destruct (decr_at_some l i Hi ltac:(lia)) as [l1 [E [Hlen1 Hnth1]]].
        rewrite E. apply (proj2 (IH l1 ltac:(lia))).
        exists j. rewrite Hnth1. rewrite count_class_cons in Hj. fold i in Hj.
        destruct (j =? i) eqn:E1; destruct (i =? j) eqn:E2;
          try (apply Nat.eqb_eq in E1; apply Nat.eqb_neq in E2; congruence);
          try (apply Nat.eqb_neq in E1; apply Nat.eqb_eq in E2; congruence).
        -- apply Nat.eqb_eq in E1. subst j. lia.
        -- lia.
Qed.

Lemma remove_bytes_fold (h : ColumnComplexity) (bytes : list Byte.byte) :
  remove_bytes h bytes =
  match fold_left remove_step bytes (Some (class_counts h)) with
  | Some counts => Some {| class_counts := counts |}
  | None => None
  end.
Proof. reflexivity. Qed.

Ltac byte_case :=
  vm_compute; repeat split; intros;
  repeat match goal with H : _ \/ _ |- _ => destruct H end;
  try discriminate; try reflexivity; try (left; reflexivity);
  try (right; reflexivity); try lia.

(** X5: [CharacterClass::from_byte] puts in [Quote], [Comma] and [Tab] only
    their one byte, in [Newline] only LF and CR, in [Whitespace] only the
    space and the form feed (the other ASCII white space bytes are matched
    first), and every byte from 128 up in [Other]. *)
Theorem from_byte_small_classes :
  forall b : Byte.byte,
    (from_byte b = Quote <-> b = byte_quote)
    /\ (from_byte b = Comma <-> b = ","%byte)
    /\ (from_byte b = Tab <-> b = x09)
    /\ (from_byte b = Newline <-> b = byte_LF \/ b = byte_CR)
    /\ (from_byte b = Whitespace <-> b = " "%byte \/ b = x0c)
    /\ (128 <= Byte.to_nat b -> from_byte b = Other).
Proof. intro b. destruct b; byte_case. Qed.

Lemma from_byte_small_classes_witness :
  (from_byte x0c = Whitespace <-> x0c = " "%byte \/ x0c = x0c)
  /\ from_byte xe9 = Other.
Proof.
  split.
  - apply (proj1 (proj2 (proj2 (proj2 (proj2 (from_byte_small_classes x0c)))))).
  - apply (proj2 (proj2 (proj2 (proj2 (proj2 (from_byte_small_classes xe9)))))).
    vm_compute. lia.
Defined.

(** X6: [from_byte_slice_iter] counts, for each class, the bytes of that
    class over all the slices; the counts add up to the number of bytes. *)
Theorem from_byte_slice_iter_counts :
  forall iter : list (list Byte.byte),
    List.length (class_counts (from_byte_slice_iter iter)) = 9
    /\ (forall c, nth (class_index c) (class_counts (from_byte_slice_iter iter)) 0
                  = count_class (class_index c) (List.concat iter))
    /\ sum_usize (class_counts (from_byte_slice_iter iter))
       = List.length (List.concat iter).
Proof.
  intro iter. unfold from_byte_slice_iter, default_complexity.
  destruct (fold_add_bytes_counts iter (repeat 0 9) eq_refl) as [H1 H2].
  split; [exact H1|]. split.
  - intro c. rewrite H2. pose proof (class_index_lt c).
    destruct (class_index c) as [|[|[|[|[|[|[|[|[|i]]]]]]]]]; try reflexivity; lia.
  - rewrite (sum_usize_counts _ H1). simpl. rewrite !H2. simpl.
    pose proof (count_class_total (List.concat iter)). lia.
Qed.

(** X7: [remove_bytes] (with overflow checks) panics exactly when some class
    would lose more bytes than it counts; otherwise each class count drops
    by the number of its bytes. *)
Theorem remove_bytes_counts :
  forall (h : ColumnComplexity) (bytes : list Byte.byte),
    List.length (class_counts h) = 9 ->
    ((forall c, count_class (class_index c) bytes
                <= nth (class_index c) (class_counts h) 0) ->
     exists h', remove_bytes h bytes = Some h'
       /\ List.length (class_counts h') = 9
       /\ forall c, nth (class_index c) (class_counts h') 0
                    = nth (class_index c) (class_counts h) 0
                      - count_class (class_index c) bytes)
    /\ ((exists c, nth (class_index c) (class_counts h) 0
                   < count_class (class_index c) bytes) ->
        remove_bytes h bytes = None).
Proof.
  intros h bytes Hl. rewrite remove_bytes_fold.
  destruct (fold_remove_counts bytes (class_counts h) Hl) as [Hs Hn]. split.
  - intro Hc. destruct Hs as [l' [E [Hlen Hnth]]].
    + intro j. destruct (Nat.lt_ge_cases j 9) as [Hj|Hj].
      * destruct (class_of_index j Hj) as [c <-]. apply Hc.
      * rewrite count_class_large by exact Hj. lia.
    + rewrite E. eexists. split; [reflexivity|]. split; [exact Hlen|].
      intro c. apply Hnth.
  - intros [c Hc]. rewrite Hn; [reflexivity|]. exists (class_index c). exact Hc.
Qed.

Lemma remove_bytes_counts_witness :
  remove_bytes default_complexity (list_byte_of_string "a") = None.
Proof.
  apply (proj2 (remove_bytes_counts default_complexity
                  (list_byte_of_string "a") eq_refl)).
  exists Letter. vm_compute. lia.
Defined.

(** X8: Removing the bytes just added gives the histogram back. *)
Theorem remove_bytes_add_bytes :
  forall (h : ColumnComplexity) (bytes : list Byte.byte),
    List.length (class_counts h) = 9 ->
    remove_bytes (add_bytes h bytes) bytes = Some h.
Proof.
  intros [l] bytes Hl. simpl in Hl.
  destruct (add_bytes_counts bytes l Hl) as [Ha1 Ha2].
  rewrite remove_bytes_fold.
  destruct (fold_remove_counts bytes _ Ha1) as [Hs _].
  destruct Hs as [l' [E [Hlen Hnth]]].
  - intro j. rewrite Ha2. lia.
  - rewrite E. f_equal. f_equal.
    apply nth_ext with (d := 0) (d' := 0); [congruence|].
    intros j _. rewrite Hnth, Ha2. lia.
Qed.

Lemma remove_bytes_add_bytes_witness :
  remove_bytes (add_bytes default_complexity (list_byte_of_string "a1,")) 
    (list_byte_of_string "a1,") = Some default_complexity.
Proof. apply remove_bytes_add_bytes. reflexivity. Defined.

End ColumnMore.

(** * More properties of [Solution::new] and [Solution::iter_quote_pairs] *)
Module SolutionMore.
Import Medium SolutionFacts.

Lemma new_unfold (raw : list Byte.byte) (d : Byte.byte) (qv : Mask) :
  new raw d qv =
  default_heuristics
    {| delimiter := d; column_count := None; column_complexities := [];
       file_length := List.length raw;
       delimiter_locations := positions (records_delimiter d) 0 raw;
       quote_locations := positions (records_quote raw d) 0 raw;
       quote_can_start := qv; quote_can_end := qv |}.
Proof. unfold new. rewrite scan_positions. reflexivity. Qed.

Lemma length_quote_positions (raw : list Byte.byte) (d : Byte.byte) :
  forall bytes i,
    List.length (positions (records_quote raw d) i bytes)
    <= count_occ Byte.byte_eq_dec bytes byte_quote.
Proof.
  induction bytes as [|b bytes IH]; intro i; simpl; [lia|].
  specialize (IH (S i)).
  destruct (records_quote raw d i b) eqn:E;
    destruct (Byte.byte_eq_dec b byte_quote) as [Eb|Eb]; simpl; try lia.
  exfalso. apply Eb. unfold records_quote in E.
  apply andb_true_iff in E. destruct E as [E _]. apply andb_true_iff in E.
  destruct E as [_ E]. apply byte_eqb_iff. exact E.
Qed.

Lemma quote_rules_some (dl : list nat) (fl : nat) : forall qs n cs ce,
  n + List.length qs <= List.length cs -> n + List.length qs <= List.length ce ->
  exists cs' ce', quote_rules dl fl n qs cs ce = Some (cs', ce').
Proof.
  induction qs as [|q qs IH]; intros n cs ce Hcs Hce; simpl in *.
  - eexists. eexists. reflexivity.
  - assert (Hs : forall m, n < List.length m ->
              exists m', mask_set m n false = Some m' /\ List.length m' = List.length m).
    { intros m Hm. unfold mask_set. rewrite (proj2 (Nat.ltb_lt _ _) Hm).
      eexists. split; [reflexivity|]. apply length_replace_at. }
    destruct (Hs cs ltac:(lia)) as [cs1 [Ecs Lcs]].
    destruct (Hs ce ltac:(lia)) as [ce1 [Ece Lce]].
    destruct ((q =? 0) || binary_search_is_ok dl (q - 1));
      destruct ((q =? fl - 1) || binary_search_is_ok dl (q + 1));
      rewrite ?Ecs, ?Ece; apply IH; lia.
Qed.

Lemma first_one_lt (m : Mask) j : first_one m = Some j -> j < List.length m.
Proof. intro H. apply nth_error_Some. rewrite (first_one_true m j H). discriminate. Qed.

Lemma last_one_true : forall (m : Mask) l,
  last_one m = Some l -> nth_error m l = Some true.
Proof.
  induction m as [|b m IH]; intros l H; [discriminate|].
  unfold last_one in H. simpl in H. rewrite last_one_from_shift in H.
  fold (last_one m) in H.
  destruct (last_one m) as [l'|] eqn:E; simpl in H.
  - inversion H; subst. simpl. apply IH. reflexivity.
  - destruct b; inversion H; reflexivity.
Qed.

Lemma last_one_lt (m : Mask) l : last_one m = Some l -> l < List.length m.
Proof. intro H. apply nth_error_Some. rewrite (last_one_true m l H). discriminate. Qed.

(** What [new] does to the two masks. *)
Lemma new_masks (raw : list Byte.byte) (d : Byte.byte) (qv : Mask) (s : Solution) :
  new raw d qv = Some s ->
  List.length (quote_can_start s) = List.length qv
  /\ List.length (quote_can_end s) = List.length qv
  /\ (forall k, nth_error (quote_can_start s) k = Some true -> nth_error qv k = Some true)
  /\ (forall k, nth_error (quote_can_end s) k = Some true -> nth_error qv k = Some true).
Proof.
  intro H. apply new_spec, default_heuristics_spec in H.
  destruct H as [cs1 [ce1 [Hqr [Hce [Hcs _]]]]]. simpl in Hqr.
  destruct (quote_rules_spec _ _ _ _ _ _ _ _ Hqr) as [L1 [L2 [P1 [P2 _]]]].
  destruct (clear_before_spec _ _ _ Hce) as [Lce [B1 B2]].
  destruct (clear_from_spec _ _ _ Hcs) as [Lcs [F1 F2]].
  assert (Hkeep : forall (m m1 : Mask) k,
            List.length m1 = List.length m ->
            (forall k, nth_error m k = Some false -> nth_error m1 k = Some false) ->
            nth_error m1 k = Some true -> nth_error m k = Some true).
  { intros m m1 k Hlen Hf Ht.
    assert (Hk : k < List.length m) by (rewrite <- Hlen; apply nth_error_Some; rewrite Ht; discriminate).
    apply nth_error_Some in Hk. destruct (nth_error m k) as [[|]|] eqn:E; try congruence.
    rewrite (Hf k E) in Ht. discriminate. }
  split; [congruence|]. split; [congruence|]. split.
  - intros k Ht.
    destruct (Nat.lt_ge_cases k (unwrap_or (last_one (quote_can_end s)) 0)) as [Hk|Hk].
    + rewrite F1 in Ht by exact Hk. exact (Hkeep qv cs1 k L1 P1 Ht).
    + assert (Hlt : k < List.length cs1)
        by (rewrite <- Lcs; apply nth_error_Some; rewrite Ht; discriminate).
      rewrite (F2 k Hk Hlt) in Ht. discriminate.
  - intros k Ht.
    destruct (Nat.lt_ge_cases k (unwrap_or (first_one cs1) 0)) as [Hk|Hk].
    + rewrite (B1 k Hk) in Ht. discriminate.
    + rewrite B2 in Ht by exact Hk. exact (Hkeep qv ce1 k L2 P2 Ht).
Qed.

(** X9: [Solution::new] does not panic when [quote_valid] has a bit for every
    quote byte of the buffer. *)
Theorem new_no_panic :
  forall (raw : list Byte.byte) (delimiter : Byte.byte) (quote_valid : Mask),
    count_occ Byte.byte_eq_dec raw byte_quote <= List.length quote_valid ->
    exists s, new raw delimiter quote_valid = Some s.
Proof.
  intros raw d qv Hq. rewrite new_unfold. unfold default_heuristics. simpl.
  pose proof (length_quote_positions raw d raw 0) as Hlen.
  destruct (quote_rules_some (positions (records_delimiter d) 0 raw) (List.length raw)
              (positions (records_quote raw d) 0 raw) 0 qv qv ltac:(lia) ltac:(lia))
    as [cs1 [ce1 E]].
  rewrite E.
  destruct (quote_rules_spec _ _ _ _ _ _ _ _ E) as [L1 [L2 _]].
  assert (Hb : unwrap_or (first_one cs1) 0 <= List.length ce1).
  { destruct (first_one cs1) as [j|] eqn:Ej; simpl; [|lia].
    apply first_one_lt in Ej. lia. }
  unfold clear_before at 1. rewrite (proj2 (Nat.leb_le _ _) Hb).
  set (ce2 := repeat false (unwrap_or (first_one cs1) 0)
                ++ skipn (unwrap_or (first_one cs1) 0) ce1).
  assert (Hf : unwrap_or (last_one ce2) 0 <= List.length cs1).
  { destruct (last_one ce2) as [l|] eqn:El; simpl; [|lia].
    apply last_one_lt in El. unfold ce2 in El.
    rewrite length_app, repeat_length, length_skipn in El. lia. }
  unfold clear_from. rewrite (proj2 (Nat.leb_le _ _) Hf).
  eexists. reflexivity.
Qed.

Definition raw_two_quotes : list Byte.byte :=
  [byte_quote; "a"%byte; byte_quote; ","%byte; "b"%byte].

Lemma new_no_panic_witness :
  exists s, new raw_two_quotes ","%byte [true; true] = Some s.
Proof. apply new_no_panic. vm_compute. lia. Defined.

(** X10: [Solution::new] only clears bits: both masks keep the length of
    [quote_valid], and a quote it leaves able to open or to close is one
    that [quote_valid] enables. *)
Theorem new_only_clears :
  forall (raw : list Byte.byte) (delimiter : Byte.byte) (quote_valid : Mask)
         (s : Solution),
    new raw delimiter quote_valid = Some s ->
    List.length (quote_can_start s) = List.length quote_valid
    /\ List.length (quote_can_end s) = List.length quote_valid
    /\ (forall k, nth_error (quote_can_start s) k = Some true ->
                  nth_error quote_valid k = Some true)
    /\ (forall k, nth_error (quote_can_end s) k = Some true ->
                  nth_error quote_valid k = Some true).
Proof. intros raw d qv s H. exact (new_masks raw d qv s H). Qed.

Lemma new_only_clears_witness :
  exists s, new raw_two_quotes ","%byte [true; false] = Some s
    /\ List.length (quote_can_start s) = 2
    /\ List.length (quote_can_end s) = 2
    /\ (forall k, nth_error (quote_can_start s) k = Some true ->
                  nth_error [true; false] k = Some true)
    /\ (forall k, nth_error (quote_can_end s) k = Some true ->
                  nth_error [true; false] k = Some true).
Proof.
  eexists. split; [vm_compute; reflexivity|].
  apply (new_only_clears raw_two_quotes ","%byte [true; false]).
  vm_compute. reflexivity.
Defined.

(** [a] is [b] with some elements left out. *)
Inductive sublist {A : Type} : list A -> list A -> Prop :=
| sublist_nil l : sublist [] l
| sublist_skip x a l : sublist a l -> sublist a (x :: l)
| sublist_take x a l : sublist a l -> sublist (x :: a) (x :: l).

Lemma sublist_incl {A : Type} (a l : list A) : sublist a l -> incl a l.
Proof.
  induction 1; intros y Hy; simpl in *; [contradiction| |].
  - right. apply IHsublist. exact Hy.
  - destruct Hy as [<-|Hy]; [left; reflexivity|right; apply IHsublist; exact Hy].
Qed.

Lemma sublist_sorted {A : Type} (R : A -> A -> Prop) (a l : list A) :
  sublist a l -> StronglySorted R l -> StronglySorted R a.
Proof.
  induction 1; intro Hs; [constructor| |].
  - apply IHsublist. inversion Hs; assumption.
  - inversion Hs as [|? ? Hs' Hf]; subst. constructor; [apply IHsublist; exact Hs'|].
    rewrite Forall_forall in *. intros y Hy. apply Hf. apply (sublist_incl a l H y Hy).
Qed.

Lemma sublist_skip2 {A : Type} (x y : A) (a l : list A) :
  sublist a (x :: l) -> sublist a (x :: y :: l).
Proof.
  intro H. inversion H; subst.
  - constructor.
  - do 2 apply sublist_skip. assumption.
  - apply sublist_take. apply sublist_skip. assumption.
Qed.

(** The bytes of the pairs, in order. *)
Definition flatten_pairs (pairs : list (nat * nat)) : list nat :=
  List.concat (map (fun p => [fst p; snd p]) pairs).

Definition opt_list (o : option nat) : list nat :=
  match o with Some x => [x] | None => [] end.

Lemma quote_pairs_sublist (cs ce qv : Mask) : forall l n st ps,
  quote_pairs cs ce qv st (enumerate_from n l) = Some ps ->
  sublist (flatten_pairs ps) (opt_list st ++ l).
Proof.
  induction l as [|x l IH]; intros n st ps H.
  - simpl in H. inversion H; subst. constructor.
  - simpl in H. destruct st as [sb|].
    + destruct (skip_quote ce qv n) as [[|]|]; try discriminate.
      * apply sublist_skip2. exact (IH _ _ _ H).
      * destruct (quote_pairs cs ce qv None (enumerate_from (S n) l)) as [p|] eqn:E;
          [|discriminate].
        inversion H; subst. simpl.
        do 2 apply sublist_take. exact (IH _ _ _ E).
    + destruct (skip_quote cs qv n) as [[|]|]; try discriminate.
      * apply sublist_skip. exact (IH _ _ _ H).
      * exact (IH _ _ _ H).
Qed.

Lemma in_enumerate_from {A : Type} : forall (l : list A) n i x,
  In (i, x) (enumerate_from n l) -> n <= i /\ nth_error l (i - n) = Some x.
Proof.
  induction l as [|y l IH]; intros n i x H; simpl in H; [contradiction|].
  destruct H as [H|H].
  - inversion H; subst. rewrite Nat.sub_diag. split; reflexivity.
  - destruct (IH _ _ _ H) as [Hle Hx]. split; [lia|].
    replace (i - n) with (S (i - S n)) by lia. exact Hx.
Qed.

Lemma quote_pairs_some (cs ce qv : Mask) : forall l n st,
  n + List.length l <= List.length cs -> n + List.length l <= List.length ce ->
  n + List.length l <= List.length qv ->
  exists ps, quote_pairs cs ce qv st (enumerate_from n l) = Some ps.
Proof.
  assert (Hsk : forall m n, n < List.length m -> n < List.length qv ->
             exists b, skip_quote m qv n = Some b).
  { intros m n Hm Hq. unfold skip_quote.
    apply nth_error_Some in Hm. apply nth_error_Some in Hq.
    destruct (nth_error m n) as [a|]; [|congruence].
    destruct (negb a); [eexists; reflexivity|].
    destruct (nth_error qv n); [eexists; reflexivity|congruence]. }
  induction l as [|x l IH]; intros n st Hcs Hce Hqv; simpl in *.
  - eexists. reflexivity.
  - destruct st as [sb|].
    + destruct (Hsk ce n ltac:(lia) ltac:(lia)) as [b E]. rewrite E.
      destruct b; [apply IH; lia|].
      destruct (IH (S n) None ltac:(lia) ltac:(lia) ltac:(lia)) as [p Ep].
      rewrite Ep. eexists. reflexivity.
    + destruct (Hsk cs n ltac:(lia) ltac:(lia)) as [b E]. rewrite E.
      destruct b; apply IH; lia.
Qed.

Lemma quote_pairs_flags (cs ce qv : Mask) (Ps Pe : nat -> Prop) : forall l n st ps,
  quote_pairs cs ce qv st (enumerate_from n l) = Some ps ->
  (forall sb, st = Some sb -> Ps sb) ->
  (forall i x, In (i, x) (enumerate_from n l) -> skip_quote cs qv i = Some false -> Ps x) ->
  (forall i x, In (i, x) (enumerate_from n l) -> skip_quote ce qv i = Some false -> Pe x) ->
  forall a b, In (a, b) ps -> Ps a /\ Pe b.
Proof.
  induction l as [|x l IH]; intros n st ps H Hst HPs HPe a b Hab.
  - simpl in H. inversion H; subst. contradiction.
  - simpl in H.
    assert (HPs' : forall i y, In (i, y) (enumerate_from (S n) l) ->
               skip_quote cs qv i = Some false -> Ps y)
      by (intros i y Hi; apply HPs; right; exact Hi).
    assert (HPe' : forall i y, In (i, y) (enumerate_from (S n) l) ->
               skip_quote ce qv i = Some false -> Pe y)
      by (intros i y Hi; apply HPe; right; exact Hi).
    destruct st as [sb|].
    + destruct (skip_quote ce qv n) as [[|]|] eqn:Esk; try discriminate.
      * exact (IH _ _ _ H Hst HPs' HPe' a b Hab).
      * destruct (quote_pairs cs ce qv None (enumerate_from (S n) l)) as [p|] eqn:E;
          [|discriminate].
        inversion H; subst. destruct Hab as [Hab|Hab].
        -- inversion Hab; subst. split; [apply Hst; reflexivity|].
           eapply HPe; [left; reflexivity|exact Esk].
        -- refine (IH _ _ _ E _ HPs' HPe' a b Hab). discriminate.
    + destruct (skip_quote cs qv n) as [[|]|] eqn:Esk; try discriminate.
      * refine (IH _ _ _ H _ HPs' HPe' a b Hab). discriminate.
      * refine (IH _ _ _ H _ HPs' HPe' a b Hab).
        intros sb Hsb. inversion Hsb; subst.
        apply (HPs n sb); [left; reflexivity|exact Esk].
Qed.

Lemma skip_quote_false (m qv : Mask) (i : nat) :
  skip_quote m qv i = Some false ->
  nth_error m i = Some true /\ nth_error qv i = Some true.
Proof.
  unfold skip_quote. destruct (nth_error m i) as [[|]|]; simpl; try discriminate.
  destruct (nth_error qv i) as [[|]|]; simpl; try discriminate.
  split; reflexivity.
Qed.

Lemma pair_lt : forall ps a b,
  In (a, b) ps -> StronglySorted lt (flatten_pairs ps) -> a < b.
Proof.
  induction ps as [|[x y] ps IH]; intros a b Hin Hs; [contradiction|].
  simpl in Hs. inversion Hs as [|? ? Hs1 Hf]; subst.
  destruct Hin as [Hin|Hin].
  - inversion Hin; subst. inversion Hf; assumption.
  - inversion Hs1; subst. apply IH; assumption.
Qed.

(** X11: [Solution::iter_quote_pairs], run to its end, does not panic when the
    two masks and [quote_valid] have a bit for every quote location; on
    ascending quote locations the bytes of the pairs come in strictly
    ascending order, each pair opening at a quote that can start and that
    [quote_valid] enables, and closing at a later one that can end and
    that [quote_valid] enables. *)
Theorem iter_quote_pairs_ordered :
  forall (s : Solution) (quote_valid : Mask),
    StronglySorted lt (quote_locations s) ->
    List.length (quote_locations s) <= List.length (quote_can_start s) ->
    List.length (quote_locations s) <= List.length (quote_can_end s) ->
    List.length (quote_locations s) <= List.length quote_valid ->
    exists pairs,
      iter_quote_pairs s quote_valid = Some pairs
      /\ StronglySorted lt (flatten_pairs pairs)
      /\ forall a b, In (a, b) pairs ->
           (exists i, nth_error (quote_locations s) i = Some a
                      /\ nth_error (quote_can_start s) i = Some true
                      /\ nth_error quote_valid i = Some true)
           /\ (exists j, nth_error (quote_locations s) j = Some b
                         /\ nth_error (quote_can_end s) j = Some true
                         /\ nth_error quote_valid j = Some true).
Proof.
  intros s qv Hs Lcs Lce Lqv. unfold iter_quote_pairs.
  destruct (quote_pairs_some (quote_can_start s) (quote_can_end s) qv
              (quote_locations s) 0 None Lcs Lce Lqv) as [ps E].
  exists ps. split; [exact E|]. split.
  - apply (sublist_sorted lt _ (quote_locations s)); [|exact Hs].
    exact (quote_pairs_sublist _ _ _ _ _ _ _ E).
  - apply (quote_pairs_flags _ _ _ _ _ _ _ _ _ E); [discriminate| |].
    + intros i x Hi Hsk. apply in_enumerate_from in Hi. rewrite Nat.sub_0_r in Hi.
      destruct (skip_quote_false _ _ _ Hsk). exists i. tauto.
    + intros i x Hi Hsk. apply in_enumerate_from in Hi. rewrite Nat.sub_0_r in Hi.
      destruct (skip_quote_false _ _ _ Hsk). exists i. tauto.
Qed.

Definition solution_w : Solution :=
  {| delimiter := ","%byte; column_count := None; column_complexities := [];
     file_length := 9; delimiter_locations := [];
     quote_locations := [0; 2; 4; 6; 8];
     quote_can_start := [true; false; true; true; false];
     quote_can_end := [false; true; false; true; true] |}.

Lemma iter_quote_pairs_ordered_witness :
  iter_quote_pairs solution_w [true; true; true; true; true] = Some [(0, 2); (4, 6)].
Proof.
  destruct (iter_quote_pairs_ordered solution_w [true; true; true; true; true])
    as [ps [E _]].
  - vm_compute. repeat constructor; lia.
  - vm_compute. lia.
  - vm_compute. lia.
  - vm_compute. lia.
  - rewrite E. vm_compute in E. exact (eq_sym E).
Defined.

(** X12: After [Solution::new] on a buffer, with a [quote_valid] bit for every
    recorded quote, [iter_quote_pairs] does not panic and yields pairs of
    offsets of quote bytes of the buffer, each opening before it closes
    and each pair after the one before it. *)
Theorem new_iter_quote_pairs :
  forall (raw : list Byte.byte) (delimiter : Byte.byte) (quote_valid : Mask)
         (s : Solution),
    new raw delimiter quote_valid = Some s ->
    List.length (quote_locations s) <= List.length quote_valid ->
    exists pairs,
      iter_quote_pairs s quote_valid = Some pairs
      /\ StronglySorted lt (flatten_pairs pairs)
      /\ forall a b, In (a, b) pairs ->
           a < b /\ nth_error raw a = Some byte_quote
           /\ nth_error raw b = Some byte_quote.
Proof.
  intros raw d qv s H Hlen.
  destruct (new_masks raw d qv s H) as [Lcs [Lce _]].
  apply new_spec, default_heuristics_spec in H.
  destruct H as [cs1 [ce1 [_ [_ [_ [_ [Hql _]]]]]]]. simpl in Hql.
  assert (Hq : forall i x, In (i, x) (enumerate_from 0 (quote_locations s)) ->
             nth_error raw x = Some byte_quote).
  { intros i x Hi. apply in_enumerate_from in Hi. destruct Hi as [_ Hi].
    apply nth_error_In in Hi. rewrite Hql in Hi. apply in_positions in Hi.
    destruct Hi as [k [b [Ek [Hb Hr]]]]. simpl in Ek. subst k.
    unfold records_quote in Hr. apply andb_true_iff in Hr. destruct Hr as [Hr _].
    apply andb_true_iff in Hr. destruct Hr as [_ Hr].
    apply byte_eqb_iff in Hr. subst b. exact Hb. }
  unfold iter_quote_pairs.
  destruct (quote_pairs_some (quote_can_start s) (quote_can_end s) qv
              (quote_locations s) 0 None ltac:(lia) ltac:(lia) Hlen) as [ps E].
  assert (Hsorted : StronglySorted lt (flatten_pairs ps)).
  { apply (sublist_sorted lt _ (quote_locations s)).
    - exact (quote_pairs_sublist _ _ _ _ _ _ _ E).
    - rewrite Hql. apply positions_sorted. }
  exists ps. split; [exact E|]. split; [exact Hsorted|].
  intros a b Hab. split; [exact (pair_lt ps a b Hab Hsorted)|].
  apply (quote_pairs_flags _ _ _ (fun x => nth_error raw x = Some byte_quote)
           (fun x => nth_error raw x = Some byte_quote) _ _ _ _ E);
    [discriminate|intros i x Hi _; exact (Hq i x Hi)
    |intros i x Hi _; exact (Hq i x Hi)|exact Hab].
Qed.

(** [x], quote, quote, [x], quote, quote, [x]: with the quote byte as the
    delimiter, the quotes at 2 and 5 are recorded and paired. *)
Definition raw_pairs : list Byte.byte :=
  ["x"%byte; byte_quote; byte_quote; "x"%byte; byte_quote; byte_quote; "x"%byte].

Lemma new_iter_quote_pairs_witness :
  exists s pairs,
    new raw_pairs byte_quote [true; true] = Some s
    /\ iter_quote_pairs s [true; true] = Some pairs
    /\ StronglySorted lt (flatten_pairs pairs)
    /\ forall a b, In (a, b) pairs ->
         a < b /\ nth_error raw_pairs a = Some byte_quote
         /\ nth_error raw_pairs b = Some byte_quote.
Proof.
  eexists.
  assert (E : new raw_pairs byte_quote [true; true]
              = Some (match new raw_pairs byte_quote [true; true] with
                      | Some s => s | None => solution_w end))
    by (vm_compute; reflexivity).
  destruct (new_iter_quote_pairs raw_pairs byte_quote [true; true] _ E)
    as [ps [H1 H2]]; [vm_compute; lia|].
  exists ps. split; [exact E|]. exact (conj H1 H2).
Defined.

Lemma crlf_at : forall (raw : list Byte.byte) j,
  starts_with_crlf (skipn j raw) = true -> nth_error raw (S j) = Some byte_LF.
Proof.
  induction raw as [|x raw IH]; intros j H; [destruct j; discriminate|].
  destruct j as [|j].
  - destruct raw as [|y raw]; [discriminate|]. simpl in H.
    apply andb_true_iff in H. destruct H as [_ H]. apply byte_eqb_iff in H.
    subst y. reflexivity.
  - simpl in H. simpl. apply IH. exact H.
Qed.

(** For a delimiter other than the quote byte, a recorded quote that
    [Solution::new] leaves able to open is the last byte of the buffer. *)
Lemma new_can_start_last (raw : list Byte.byte) (d : Byte.byte) (qv : Mask)
    (s : Solution) (k q : nat) :
  d <> byte_quote -> new raw d qv = Some s ->
  nth_error (quote_locations s) k = Some q ->
  nth_error (quote_can_start s) k = Some true ->
  q = List.length raw - 1.
Proof.
  intros Hd H Hk Ht. apply new_spec, default_heuristics_spec in H.
  destruct H as [cs1 [ce1 [Hqr [_ [Hcs [_ [Hql _]]]]]]]. simpl in Hqr, Hql.
  destruct (quote_rules_spec _ _ _ _ _ _ _ _ Hqr) as [_ [_ [_ [_ [P1 _]]]]].
  destruct (clear_from_spec _ _ _ Hcs) as [Lcs [F1 F2]].
  assert (Ht1 : nth_error cs1 k = Some true).
  { destruct (Nat.lt_ge_cases k (unwrap_or (last_one (quote_can_end s)) 0)) as [Hl|Hl].
    - rewrite <- F1 by exact Hl. exact Ht.
    - assert (Hlt : k < List.length cs1)
        by (rewrite <- Lcs; apply nth_error_Some; rewrite Ht; discriminate).
      rewrite (F2 k Hl Hlt) in Ht. discriminate. }
  rewrite Hql in Hk.
  destruct ((q =? 0) || binary_search_is_ok (positions (records_delimiter d) 0 raw) (q - 1))
    eqn:Eprev.
  { pose proof (P1 k q Hk Eprev) as Hf. simpl in Hf. congruence. }
  apply orb_false_iff in Eprev. destruct Eprev as [E0 Esearch].
  apply Nat.eqb_neq in E0.
  assert (Hnot : ~ In (q - 1) (positions (records_delimiter d) 0 raw)).
  { intro Hin. apply search_in in Hin. congruence. }
  apply nth_error_In in Hk. apply in_positions in Hk.
  destruct Hk as [j [b [Ej [Hb Hr]]]]. simpl in Ej. subst j.
  unfold records_quote in Hr. apply andb_true_iff in Hr. destruct Hr as [Hr Hrec].
  apply andb_true_iff in Hr. destruct Hr as [_ Hbq]. apply byte_eqb_iff in Hbq. subst b.
  assert (Hq1 : q - 1 < List.length raw)
    by (assert (q < List.length raw) by (apply nth_error_Some; rewrite Hb; discriminate); lia).
  pose proof (nth_error_nth' raw x00 Hq1) as Hprev.
  unfold quote_recorded in Hrec.
  rewrite (proj2 (Nat.eqb_neq q 0) E0) in Hrec. simpl in Hrec.
  destruct (Byte.eqb (nth (q - 1) raw x00) d) eqn:E1.
  { apply byte_eqb_iff in E1. rewrite E1 in Hprev. exfalso. apply Hnot.
    apply in_delimiter_positions; [exact Hd|]. right. exact Hprev. }
  destruct (Byte.eqb (nth (q - 1) raw x00) byte_LF) eqn:E2.
  { apply byte_eqb_iff in E2. rewrite E2 in Hprev. exfalso. apply Hnot.
    apply in_delimiter_positions; [exact Hd|]. left. exact Hprev. }
  destruct (starts_with_crlf (skipn (q - 1) raw)) eqn:E3.
  { apply crlf_at in E3. replace (S (q - 1)) with q in E3 by lia.
    rewrite Hb in E3. discriminate. }
  simpl in Hrec. apply Nat.eqb_eq in Hrec. exact Hrec.
Qed.

(** X13: For a delimiter other than the quote byte, [iter_quote_pairs] after
    [Solution::new] yields no pair at all: the only recorded quote that
    [new] leaves able to open is one at the last byte, and no quote comes
    after it to close. *)
Theorem new_iter_quote_pairs_empty :
  forall (raw : list Byte.byte) (delimiter : Byte.byte) (quote_valid : Mask)
         (s : Solution),
    delimiter <> byte_quote ->
    new raw delimiter quote_valid = Some s ->
    List.length (quote_locations s) <= List.length quote_valid ->
    iter_quote_pairs s quote_valid = Some [].
Proof.
  intros raw d qv s Hd H Hlen.
  destruct (new_masks raw d qv s H) as [Lcs [Lce _]].
  pose proof H as H0. apply new_spec, default_heuristics_spec in H0.
  destruct H0 as [cs1 [ce1 [_ [_ [_ [_ [Hql _]]]]]]]. simpl in Hql.
  unfold iter_quote_pairs.
  destruct (quote_pairs_some (quote_can_start s) (quote_can_end s) qv
              (quote_locations s) 0 None ltac:(lia) ltac:(lia) Hlen) as [ps E].
  rewrite E. destruct ps as [|[a b] ps]; [reflexivity|exfalso].
  assert (Hsorted : StronglySorted lt (flatten_pairs ((a, b) :: ps))).
  { apply (sublist_sorted lt _ (quote_locations s)).
    - exact (quote_pairs_sublist _ _ _ _ _ _ _ E).
    - rewrite Hql. apply positions_sorted. }
  pose proof (pair_lt ((a, b) :: ps) a b (or_introl eq_refl) Hsorted) as Hab.
  destruct (quote_pairs_flags _ _ _
              (fun x => exists i, nth_error (quote_locations s) i = Some x
                                  /\ nth_error (quote_can_start s) i = Some true)
              (fun x => In x (quote_locations s)) _ _ _ _ E) with (a := a) (b := b)
    as [[i [Hi Hti]] Hbin].
  - discriminate.
  - intros i x Hx Hsk. apply in_enumerate_from in Hx. rewrite Nat.sub_0_r in Hx.
    destruct (skip_quote_false _ _ _ Hsk). exists i. tauto.
  - intros i x Hx _. apply in_enumerate_from in Hx. rewrite Nat.sub_0_r in Hx.
    apply nth_error_In with (n := i). tauto.
  - left. reflexivity.
  - pose proof (new_can_start_last raw d qv s i a Hd H Hi Hti) as Ea.
    rewrite Hql in Hbin. apply in_positions in Hbin.
    destruct Hbin as [j [c [Ej [Hc _]]]]. simpl in Ej. subst j.
    assert (b < List.length raw) by (apply nth_error_Some; rewrite Hc; discriminate).
    lia.
Qed.

(** [a], quote, comma, quote, [b], quote. *)
Definition raw_no_pairs : list Byte.byte :=
  ["a"%byte; byte_quote; ","%byte; byte_quote; "b"%byte; byte_quote].

Lemma new_iter_quote_pairs_empty_witness :
  exists s, new raw_no_pairs ","%byte [true; true; true] = Some s
    /\ iter_quote_pairs s [true; true; true] = Some [].
Proof.
  eexists. split; [vm_compute; reflexivity|].
  apply (new_iter_quote_pairs_empty raw_no_pairs ","%byte [true; true; true]).
  - discriminate.
  - vm_compute. reflexivity.
  - vm_compute. lia.
Defined.

End SolutionMore.
